(** * Seat allocation and invitation lifecycle of the invite portal

    A shallow embedding of [deno-invite-portal/lib/db.ts] (the [DB] helper
    object over Deno KV) and of the two entry points of
    [deno-invite-portal/main.ts] that carry the state machine: the
    [POST /api/join] handler and the ["Auto Kick Service"] cron job.

    Modelling conventions.
    - A JavaScript string is a [string] of 8-bit characters read as ASCII:
      [toLowerCase] maps [A-Z] to [a-z] and [trim] strips the ASCII members
      of the ECMAScript white space and line terminator classes.
    - A JavaScript number holding a time stamp, a member count or a number
      of hours is an integer [Z], a usage counter (it starts at 0 and is
      only incremented) is an [N]; an optional field is an [option].  A
      number read from a request body is a rational [Q].
    - Each Deno KV key prefix is a [gmap]; [kv.list] enumerates a prefix in
      the order of its keys.
    - [await] is sequencing: a handler runs alone on the store.  Exceptions
      are explicit in the result of a computation, and what was written to
      the store before a [throw] stays written.
    - The world outside the store (clock, uuid generator, the remote team
      service) is an oracle record [Env]; the calls a handler makes to the
      remote service are appended to logs kept in the [World]. *)

From Stdlib Require Import ZArith QArith Ascii String List Sorted.
From stdpp Require Import gmap strings list fin_maps sorting pretty.

Local Open Scope string_scope.
Local Open Scope Z_scope.
Local Open Scope list_scope.

(** ** JavaScript string helpers *)

Module Js.

Definition is_upper (c : ascii) : bool :=
  let n := N_of_ascii c in (65 <=? n)%N && (n <=? 90)%N.

Definition lower_char (c : ascii) : ascii :=
  if is_upper c then ascii_of_N (N_of_ascii c + 32) else c.

(** U+0009 .. U+000D and U+0020. *)
Definition is_space (c : ascii) : bool :=
  let n := N_of_ascii c in ((9 <=? n)%N && (n <=? 13)%N) || (n =? 32)%N.

(** [s.toLowerCase()] *)
Fixpoint toLowerCase (s : string) : string :=
  match s with
  | EmptyString => EmptyString
  | String c r => String (lower_char c) (toLowerCase r)
  end.

Fixpoint trimStart (s : string) : string :=
  match s with
  | EmptyString => EmptyString
  | String c r => if is_space c then trimStart r else s
  end.

Fixpoint trimEnd (s : string) : string :=
  match s with
  | EmptyString => EmptyString
  | String c r =>
      match trimEnd r with
      | EmptyString => if is_space c then EmptyString else String c EmptyString
      | r' => String c r'
      end
  end.

(** [s.trim()] *)
Definition trim (s : string) : string := trimEnd (trimStart s).

(** A string that is empty or starts with a character that is no space. *)
Definition no_leading_space (s : string) : Prop :=
  match s with
  | EmptyString => True
  | String c _ => is_space c = false
  end.

(** Truthiness of a string: [Boolean(s)], [!!s]. *)
Definition truthy (s : string) : bool :=
  match s with EmptyString => false | _ => true end.

(** [hay.includes(needle)] on strings. *)
Fixpoint includes (needle hay : string) : bool :=
  String.prefix needle hay ||
  match hay with
  | EmptyString => false
  | String _ r => includes needle r
  end.

(** [l.includes(x)] on an array of strings. *)
Definition array_includes (x : string) (l : list string) : bool :=
  existsb (String.eqb x) l.

(** [l.sort(cmp)]: the sort is stable, and [cmp a b > 0] puts [a] after
    [b].  Insertion from the right end keeps equal elements in their
    original order. *)
Section Sort.
Context {A : Type} (cmp : A → A → Z).

Fixpoint sort_insert (x : A) (l : list A) : list A :=
  match l with
  | [] => [x]
  | y :: r => if 0 <? cmp x y then y :: sort_insert x r else x :: l
  end.

Definition sort (l : list A) : list A := foldr sort_insert [] l.
End Sort.

(** [a || b] on an optional number: [undefined] and [0] are falsy. *)
Definition num_or (a : option Z) (b : Z) : Z :=
  match a with
  | Some n => if n =? 0 then b else n
  | None => b
  end.

(** [s.replace(/-/g, "")] *)
Fixpoint remove_dashes (s : string) : string :=
  match s with
  | EmptyString => EmptyString
  | String c r =>
      if Ascii.eqb c "-"%char then remove_dashes r else String c (remove_dashes r)
  end.

(** [s.substring(0, n)] *)
Fixpoint substring0 (n : nat) (s : string) : string :=
  match n, s with
  | S n', String c r => String c (substring0 n' r)
  | _, _ => EmptyString
  end.

End Js.

(** ** Types ([lib/db.ts]) *)

Inductive TokenStatus := active | expired.
Inductive InviteStatus := pending | success | failed.

#[global] Instance TokenStatus_eq_dec : EqDecision TokenStatus.
Proof. solve_decision. Defined.

#[global] Instance InviteStatus_eq_dec : EqDecision InviteStatus.
Proof. solve_decision. Defined.

Module Team.
Record t := mk {
  id : string;
  name : string;
  accountId : string;
  accessToken : string;
  organizationId : option string;
  email : option string;
  tokenErrorCount : Z;
  tokenStatus : TokenStatus;
  memberCount : Z;
  lastInviteAt : option Z;
  createdAt : Z;
  updatedAt : Z
}.
End Team.

Module AccessKey.
Record t := mk {
  code : string;
  teamId : option string;
  isTemp : bool;
  isUnlimited : bool;
  tempHours : option Z;
  usageCount : N;
  createdAt : Z
}.
End AccessKey.

Module Invitation.
Record t := mk {
  id : string;
  teamId : string;
  email : string;
  keyCode : option string;
  status : InviteStatus;
  isTemp : bool;
  tempExpireAt : option Z;
  isConfirmed : bool;
  createdAt : Z
}.
End Invitation.

Module KickLog.
Record t := mk {
  id : string;
  teamId : string;
  email : string;
  reason : string;
  success : bool;
  error : option string;
  createdAt : Z
}.
End KickLog.

Module AutoKickConfig.
Record t := mk {
  enabled : bool;
  checkInterval : Z;
  startHour : Z;
  endHour : Z
}.
End AutoKickConfig.

(** [Omit<Invitation, "id" | "createdAt">], the argument of
    [DB.createInvitation]. *)
Module NewInvitation.
Record t := mk {
  teamId : string;
  email : string;
  keyCode : option string;
  status : InviteStatus;
  isTemp : bool;
  tempExpireAt : option Z;
  isConfirmed : bool
}.
End NewInvitation.

(** A [Partial<Team>], the argument of [DB.updateTeam]; [None] is an
    absent field.  A field that is present with the value [undefined],
    which the spread would copy into the stored record, is not modelled. *)
Module TeamUpdates.
Record t := mk {
  id : option string;
  name : option string;
  accountId : option string;
  accessToken : option string;
  organizationId : option string;
  email : option string;
  tokenErrorCount : option Z;
  tokenStatus : option TokenStatus;
  memberCount : option Z;
  lastInviteAt : option Z;
  createdAt : option Z;
  updatedAt : option Z
}.
Definition none : t := mk None None None None None None None None None None None None.

(** The object literals [main.ts] passes set none but these five
    fields. *)
Abbreviation cached accessToken tokenErrorCount tokenStatus memberCount lastInviteAt :=
  (mk None None None accessToken None None
      tokenErrorCount tokenStatus memberCount lastInviteAt None None).
End TeamUpdates.

(** A [Partial<Invitation>], the argument of [DB.updateInvitation];
    [None] is an absent field. *)
Module InvitationUpdates.
Record t := mk {
  id : option string;
  teamId : option string;
  email : option string;
  keyCode : option string;
  status : option InviteStatus;
  isTemp : option bool;
  tempExpireAt : option Z;
  isConfirmed : option bool;
  createdAt : option Z
}.
Definition none : t := mk None None None None None None None None None.
End InvitationUpdates.

(** A value of a parsed JSON body, as far as a handler tells values
    apart; [Other] is an object or an array. *)
Module Json.
Inductive value :=
| Undefined
| Null
| Bool (b : bool)
| Number (q : Q)
| Str (s : string)
| Other.

(** [!!v] *)
Definition truthy (v : value) : bool :=
  match v with
  | Undefined | Null => false
  | Bool b => b
  | Number q => negb (Qnum q =? 0)
  | Str s => Js.truthy s
  | Other => true
  end.
End Json.

(** An item of the roster returned by the remote service. *)
Module Member.
Record t := mk {
  id : string;
  email : option string;
  role : option string
}.
End Member.

(** The value [fetchTeamMembers] returns: [data.items || []] is an array
    or some other truthy JSON value. *)
Inductive Roster :=
| RosterArray (items : list Member.t)
| RosterOther.

(** ** The world *)

(** What the handlers cannot control.  [clock n] is the value of the
    [n]-th reading of [Date.now()], [uuid n] the [n]-th value of
    [crypto.randomUUID()], [local_hour ms] is [new Date(ms).getHours()].
    [members tok acc] is the outcome of [fetchTeamMembers(tok, acc)], a
    thrown message or a roster; [invite tok acc email] and
    [kick tok acc userId] are the outcomes of [inviteToTeam] and
    [kickMember], [Some msg] for a thrown [Error(msg)]. *)
Record Env := {
  clock : nat → Z;
  uuid : nat → string;
  local_hour : Z → Z;
  members : string → string → string + Roster;
  invite : string → string → string → option string;
  kick : string → string → string → option string
}.

Record World := mkWorld {
  teams : gmap string Team.t;
  keys : gmap string AccessKey.t;
  invitations : gmap string Invitation.t;
  invitations_by_email : gmap (string * string) string;
  kick_logs : gmap string KickLog.t;
  config : option AutoKickConfig.t;
  clock_reads : nat;
  uuid_draws : nat;
  fetch_calls : list (string * string);
  invite_calls : list (string * string * string);
  kick_calls : list (string * string * string)
}.

Definition empty_world : World :=
  mkWorld ∅ ∅ ∅ ∅ ∅ None 0 0 [] [] [].

Definition set_teams (f : gmap string Team.t → gmap string Team.t) (w : World) :=
  mkWorld (f (teams w)) (keys w) (invitations w) (invitations_by_email w)
    (kick_logs w) (config w) (clock_reads w) (uuid_draws w)
    (fetch_calls w) (invite_calls w) (kick_calls w).

Definition set_keys (f : gmap string AccessKey.t → gmap string AccessKey.t) (w : World) :=
  mkWorld (teams w) (f (keys w)) (invitations w) (invitations_by_email w)
    (kick_logs w) (config w) (clock_reads w) (uuid_draws w)
    (fetch_calls w) (invite_calls w) (kick_calls w).

Definition set_invitations (f : gmap string Invitation.t → gmap string Invitation.t) (w : World) :=
  mkWorld (teams w) (keys w) (f (invitations w)) (invitations_by_email w)
    (kick_logs w) (config w) (clock_reads w) (uuid_draws w)
    (fetch_calls w) (invite_calls w) (kick_calls w).

Definition set_invitations_by_email
    (f : gmap (string * string) string → gmap (string * string) string) (w : World) :=
  mkWorld (teams w) (keys w) (invitations w) (f (invitations_by_email w))
    (kick_logs w) (config w) (clock_reads w) (uuid_draws w)
    (fetch_calls w) (invite_calls w) (kick_calls w).

Definition set_kick_logs (f : gmap string KickLog.t → gmap string KickLog.t) (w : World) :=
  mkWorld (teams w) (keys w) (invitations w) (invitations_by_email w)
    (f (kick_logs w)) (config w) (clock_reads w) (uuid_draws w)
    (fetch_calls w) (invite_calls w) (kick_calls w).

Definition set_config (c : option AutoKickConfig.t) (w : World) :=
  mkWorld (teams w) (keys w) (invitations w) (invitations_by_email w)
    (kick_logs w) c (clock_reads w) (uuid_draws w)
    (fetch_calls w) (invite_calls w) (kick_calls w).

Definition set_clock_reads (n : nat) (w : World) :=
  mkWorld (teams w) (keys w) (invitations w) (invitations_by_email w)
    (kick_logs w) (config w) n (uuid_draws w)
    (fetch_calls w) (invite_calls w) (kick_calls w).

Definition set_uuid_draws (n : nat) (w : World) :=
  mkWorld (teams w) (keys w) (invitations w) (invitations_by_email w)
    (kick_logs w) (config w) (clock_reads w) n
    (fetch_calls w) (invite_calls w) (kick_calls w).

Definition log_fetch (c : string * string) (w : World) :=
  mkWorld (teams w) (keys w) (invitations w) (invitations_by_email w)
    (kick_logs w) (config w) (clock_reads w) (uuid_draws w)
    (fetch_calls w ++ [c]) (invite_calls w) (kick_calls w).

Definition log_invite (c : string * string * string) (w : World) :=
  mkWorld (teams w) (keys w) (invitations w) (invitations_by_email w)
    (kick_logs w) (config w) (clock_reads w) (uuid_draws w)
    (fetch_calls w) (invite_calls w ++ [c]) (kick_calls w).

Definition log_kick (c : string * string * string) (w : World) :=
  mkWorld (teams w) (keys w) (invitations w) (invitations_by_email w)
    (kick_logs w) (config w) (clock_reads w) (uuid_draws w)
    (fetch_calls w) (invite_calls w) (kick_calls w ++ [c]).

(** ** Computations: state, with exceptions that keep the state *)

Inductive Outcome (A : Type) :=
| Returns (a : A)
| Throws (message : string).
Arguments Returns {A} a.
Arguments Throws {A} message.

Definition M (A : Type) : Type := World → Outcome A * World.

Definition ret {A} (a : A) : M A := λ w, (Returns a, w).

Definition throw {A} (message : string) : M A := λ w, (Throws message, w).

Definition bind {A B} (m : M A) (f : A → M B) : M B :=
  λ w, match m w with
       | (Returns a, w') => f a w'
       | (Throws e, w') => (Throws e, w')
       end.

(** [try { m } catch (e) { h(e.message) }] *)
Definition try_catch {A} (m : M A) (h : string → M A) : M A :=
  λ w, match m w with
       | (Returns a, w') => (Returns a, w')
       | (Throws e, w') => h e w'
       end.

Definition gets {A} (f : World → A) : M A := λ w, (Returns (f w), w).

Definition modify (f : World → World) : M unit := λ w, (Returns tt, f w).

Declare Scope js_scope.
Delimit Scope js_scope with js.
Notation "x <- m ;; k" := (bind m (λ x, k))
  (at level 100, m at next level, right associativity) : js_scope.
Notation "m ;; k" := (bind m (λ _, k))
  (at level 100, right associativity) : js_scope.
Local Open Scope js_scope.

(** ** [DB]: the helpers of [lib/db.ts] *)

Module DB.

(** [kv.list({ prefix })] over a prefix whose keys are single strings: the
    values in ascending order of their keys. *)
Definition key_cmp {V} (a b : string * V) : Z :=
  match String.compare a.1 b.1 with
  | Lt => -1
  | Eq => 0
  | Gt => 1
  end.

Definition kv_list {V} (m : gmap string V) : list V :=
  (Js.sort key_cmp (map_to_list m)).*2.

Section WithEnv.
Variable env : Env.

(** [Date.now()] *)
Definition Date_now : M Z :=
  λ w, (Returns (clock env (clock_reads w)), set_clock_reads (S (clock_reads w)) w).

(** [crypto.randomUUID()] *)
Definition randomUUID : M string :=
  λ w, (Returns (uuid env (uuid_draws w)), set_uuid_draws (S (uuid_draws w)) w).

(** *** Teams *)

(** The arguments are the fields of the [Omit<Team, ...>] it takes. *)
Definition createTeam (name accountId accessToken : string)
    (organizationId email : option string) (lastInviteAt : option Z) : M Team.t :=
  id <- randomUUID ;;
  created <- Date_now ;;
  updated <- Date_now ;;
  let newTeam :=
    Team.mk id name accountId accessToken organizationId email
      0 active 0 lastInviteAt created updated in
  modify (set_teams <[id := newTeam]>) ;;
  ret newTeam.

Definition getTeam (id : string) : M (option Team.t) :=
  gets (λ w, teams w !! id).

(** The array [listTeams] returns: the stored teams, sorted with the
    comparator [(a, b) => b.createdAt - a.createdAt]. *)
Definition sorted_teams (w : World) : list Team.t :=
  Js.sort (λ a b, Team.createdAt b - Team.createdAt a) (kv_list (teams w)).

Definition listTeams : M (list Team.t) := gets sorted_teams.

(** [{ ...team, ...updates, updatedAt }]: the [updatedAt] of [updates]
    is overwritten. *)
Definition spread_team (team : Team.t) (updates : TeamUpdates.t) (updatedAt : Z) : Team.t :=
  Team.mk
    (default (Team.id team) (TeamUpdates.id updates))
    (default (Team.name team) (TeamUpdates.name updates))
    (default (Team.accountId team) (TeamUpdates.accountId updates))
    (default (Team.accessToken team) (TeamUpdates.accessToken updates))
    (match TeamUpdates.organizationId updates with
     | Some v => Some v
     | None => Team.organizationId team
     end)
    (match TeamUpdates.email updates with
     | Some v => Some v
     | None => Team.email team
     end)
    (default (Team.tokenErrorCount team) (TeamUpdates.tokenErrorCount updates))
    (default (Team.tokenStatus team) (TeamUpdates.tokenStatus updates))
    (default (Team.memberCount team) (TeamUpdates.memberCount updates))
    (match TeamUpdates.lastInviteAt updates with
     | Some v => Some v
     | None => Team.lastInviteAt team
     end)
    (default (Team.createdAt team) (TeamUpdates.createdAt updates))
    updatedAt.

Definition updateTeam (id : string) (updates : TeamUpdates.t) : M Team.t :=
  team <- getTeam id ;;
  match team with
  | None => throw "Team not found"
  | Some team =>
      now <- Date_now ;;
      let updatedTeam := spread_team team updates now in
      modify (set_teams <[id := updatedTeam]>) ;;
      ret updatedTeam
  end.

Definition deleteTeam (id : string) : M unit :=
  modify (set_teams (delete id)).

(** *** Access keys *)

Definition createAccessKey (code : string) (teamId : option string)
    (isTemp : bool) (isUnlimited : option bool) (tempHours : option Z) : M AccessKey.t :=
  now <- Date_now ;;
  let newKey := AccessKey.mk code teamId isTemp (default false isUnlimited) tempHours 0 now in
  modify (set_keys <[code := newKey]>) ;;
  ret newKey.

Definition getAccessKey (code : string) : M (option AccessKey.t) :=
  gets (λ w, keys w !! code).

Definition deleteAccessKey (code : string) : M unit :=
  modify (set_keys (delete code)).

Definition bump (key : AccessKey.t) : AccessKey.t :=
  AccessKey.mk (AccessKey.code key) (AccessKey.teamId key) (AccessKey.isTemp key)
    (AccessKey.isUnlimited key) (AccessKey.tempHours key)
    (AccessKey.usageCount key + 1)%N (AccessKey.createdAt key).

Definition incrementKeyUsage (code : string) : M unit :=
  key <- getAccessKey code ;;
  match key with
  | Some key => modify (set_keys <[code := bump key]>)
  | None => ret tt
  end.

(** *** Invitations *)

Definition normalize (email : string) : string :=
  Js.toLowerCase (Js.trim email).

Definition createInvitation (invite : NewInvitation.t) : M Invitation.t :=
  id <- randomUUID ;;
  let normalizedEmail := normalize (NewInvitation.email invite) in
  now <- Date_now ;;
  let newInvite :=
    Invitation.mk id (NewInvitation.teamId invite) normalizedEmail
      (NewInvitation.keyCode invite) (NewInvitation.status invite)
      (NewInvitation.isTemp invite) (NewInvitation.tempExpireAt invite)
      (NewInvitation.isConfirmed invite) now in
  modify (set_invitations <[id := newInvite]>) ;;
  modify (set_invitations_by_email
            <[(normalizedEmail, NewInvitation.teamId invite) := id]>) ;;
  ret newInvite.

Definition listInvitations : M (list Invitation.t) :=
  gets (λ w, Js.sort (λ a b, Invitation.createdAt b - Invitation.createdAt a)
               (kv_list (invitations w))).

Definition getInvitation (id : string) : M (option Invitation.t) :=
  gets (λ w, invitations w !! id).

Definition matches_team_email (teamId normalized : string) (inv : Invitation.t) : bool :=
  String.eqb (Invitation.teamId inv) teamId &&
  String.eqb (normalize (Invitation.email inv)) normalized.

Definition getLatestInvitationByEmail (teamId email : string) : M (option Invitation.t) :=
  let normalized := normalize email in
  invites <- listInvitations ;;
  let matches :=
    Js.sort (λ a b, Invitation.createdAt b - Invitation.createdAt a)
      (filter (λ inv, matches_team_email teamId normalized inv = true) invites) in
  ret (head matches).

Definition deleteInvitationsByEmail (teamId email : string) : M Z :=
  let normalized := normalize email in
  invites <- listInvitations ;;
  let matches := filter (λ inv, matches_team_email teamId normalized inv = true) invites in
  modify (set_invitations
            (λ m, foldl (λ m inv, delete (Invitation.id inv) m) m matches)) ;;
  modify (set_invitations_by_email (delete (normalized, teamId))) ;;
  ret (Z.of_nat (length matches)).

(** *** Config and logs *)

Definition default_config : AutoKickConfig.t :=
  AutoKickConfig.mk false 300 0 23.

Definition getAutoKickConfig : M AutoKickConfig.t :=
  gets (λ w, default default_config (config w)).

Definition setAutoKickConfig (c : AutoKickConfig.t) : M unit :=
  modify (set_config (Some c)).

Definition addKickLog (teamId email reason : string) (success : bool)
    (error : option string) : M KickLog.t :=
  id <- randomUUID ;;
  now <- Date_now ;;
  let newLog := KickLog.mk id teamId email reason success error now in
  modify (set_kick_logs <[id := newLog]>) ;;
  ret newLog.

(** *** The helpers the claims do not reach *)

Definition listAccessKeys : M (list AccessKey.t) :=
  gets (λ w, Js.sort (λ a b, AccessKey.createdAt b - AccessKey.createdAt a)
               (kv_list (keys w))).

(** [kv.list({ prefix: ["invitations_by_email", normalized] })]: the ids
    stored under that email, in the order of their team ids. *)
Definition index_ids (normalized : string) (m : gmap (string * string) string) : list string :=
  (Js.sort key_cmp
     (omap (λ e : string * string * string,
              if String.eqb e.1.1 normalized then Some (e.1.2, e.2) else None)
        (map_to_list m))).*2.

Definition getInvitationsByEmail (email : string) : M (list Invitation.t) :=
  let normalized := normalize email in
  inviteIds <- gets (λ w, index_ids normalized (invitations_by_email w)) ;;
  gets (λ w, omap (λ id, invitations w !! id) inviteIds).

(** [{ ...inv, ...updates }] *)
Definition spread_invitation (inv : Invitation.t) (updates : InvitationUpdates.t) : Invitation.t :=
  Invitation.mk
    (default (Invitation.id inv) (InvitationUpdates.id updates))
    (default (Invitation.teamId inv) (InvitationUpdates.teamId updates))
    (default (Invitation.email inv) (InvitationUpdates.email updates))
    (match InvitationUpdates.keyCode updates with
     | Some v => Some v
     | None => Invitation.keyCode inv
     end)
    (default (Invitation.status inv) (InvitationUpdates.status updates))
    (default (Invitation.isTemp inv) (InvitationUpdates.isTemp updates))
    (match InvitationUpdates.tempExpireAt updates with
     | Some v => Some v
     | None => Invitation.tempExpireAt inv
     end)
    (default (Invitation.isConfirmed inv) (InvitationUpdates.isConfirmed updates))
    (default (Invitation.createdAt inv) (InvitationUpdates.createdAt updates)).

Definition updateInvitation (id : string) (updates : InvitationUpdates.t) : M Invitation.t :=
  inv <- getInvitation id ;;
  match inv with
  | None => throw "Invitation not found"
  | Some inv =>
      let updated := spread_invitation inv updates in
      modify (set_invitations <[id := updated]>) ;;
      ret updated
  end.

End WithEnv.
End DB.

(** ** [main.ts]: the remote client *)

Section Handlers.
Variable env : Env.

Definition fetchTeamMembers (accessToken accountId : string) : M Roster :=
  λ w, let w' := log_fetch (accessToken, accountId) w in
       match members env accessToken accountId with
       | inl message => (Throws message, w')
       | inr roster => (Returns roster, w')
       end.

Definition inviteToTeam (accessToken accountId email : string) : M unit :=
  λ w, let w' := log_invite (accessToken, accountId, email) w in
       match invite env accessToken accountId email with
       | Some message => (Throws message, w')
       | None => (Returns tt, w')
       end.

Definition kickMember (accessToken accountId userId : string) : M unit :=
  λ w, let w' := log_kick (accessToken, accountId, userId) w in
       match kick env accessToken accountId userId with
       | Some message => (Throws message, w')
       | None => (Returns tt, w')
       end.

(** ** [POST /api/join] *)

(** The response the handler leaves in [ctx.response]; [ServerError] is
    the answer of the error middleware to an exception that leaves the
    handler. *)
Inductive Response :=
| MissingFields
| InvalidKey
| KeyAlreadyUsed
| AlreadyMember (team_name email : string)
| NoAvailableTeams
| InvitationSent
| InviteFailed (message : string)
| ServerError (message : string).

(** How the [for (const team of teams)] loop is left: by the handler's
    [return], or at its end with the value of [selectedTeam]. *)
Inductive Scan :=
| Answered (response : Response)
| Scanned (selectedTeam : option Team.t).

(** [members.filter((m) => m?.role !== "account-owner")], or [[]] when
    [members] is not an array. *)
Definition nonOwnerMembers (members : Roster) : list Member.t :=
  match members with
  | RosterArray items => filter (λ m, Member.role m ≠ Some "account-owner") items
  | RosterOther => []
  end.

(** [.map((m) => String(m?.email || "").toLowerCase()).filter(Boolean)] *)
Definition memberEmails (nonOwner : list Member.t) : list string :=
  filter (λ e, Js.truthy e = true)
    (map (λ m, Js.toLowerCase (default "" (Member.email m))) nonOwner).

(** [key.isTemp ? Date.now() + (key.tempHours || 24) * 3600000 : undefined] *)
Definition tempExpiry (key : AccessKey.t) : M (option Z) :=
  if AccessKey.isTemp key then
    now <- DB.Date_now env ;;
    ret (Some (now + Js.num_or (AccessKey.tempHours key) 24 * 3600000))
  else ret None.

Section Join.
Variables (email key_code : string) (key : AccessKey.t).

Definition normalizedEmail : string := Js.toLowerCase email.

Definition join_invitation (teamId : string) (tempExpireAt : option Z) : NewInvitation.t :=
  NewInvitation.mk teamId email (Some key_code) success
    (AccessKey.isTemp key) tempExpireAt false.

(** One iteration of the loop over the teams. *)
Definition scan_team (team : Team.t) (selectedTeam : option Team.t) : M Scan :=
  match Team.tokenStatus team with
  | expired => ret (Scanned selectedTeam)
  | active =>
      try_catch
        (members <- fetchTeamMembers (Team.accessToken team) (Team.accountId team) ;;
         let nonOwner := nonOwnerMembers members in
         let memberCount := Z.of_nat (length nonOwner) in
         refreshed <- DB.updateTeam env (Team.id team)
                        (TeamUpdates.cached None None (Some active) (Some memberCount) None) ;;
         if Js.array_includes normalizedEmail (memberEmails nonOwner) then
           tempExpireAt <- tempExpiry key ;;
           DB.createInvitation env (join_invitation (Team.id refreshed) tempExpireAt) ;;
           DB.incrementKeyUsage key_code ;;
           ret (Answered (AlreadyMember (Team.name refreshed) email))
         else if (memberCount <? 4) && negb (bool_decide (is_Some selectedTeam)) then
           ret (Scanned (Some refreshed))
         else
           ret (Scanned selectedTeam))
        (λ _,
          DB.updateTeam env (Team.id team)
            (TeamUpdates.cached None None (Some expired) None None) ;;
          ret (Scanned selectedTeam))
  end.

Fixpoint scan_teams (teams : list Team.t) (selectedTeam : option Team.t) : M Scan :=
  match teams with
  | [] => ret (Scanned selectedTeam)
  | team :: rest =>
      r <- scan_team team selectedTeam ;;
      match r with
      | Answered response => ret (Answered response)
      | Scanned selectedTeam' => scan_teams rest selectedTeam'
      end
  end.

(** Step 4 and 5 of the handler, on the selected team. *)
Definition invite_selected (selectedTeam : Team.t) : M Response :=
  try_catch
    (inviteToTeam (Team.accessToken selectedTeam) (Team.accountId selectedTeam) email ;;
     tempExpireAt <- tempExpiry key ;;
     DB.createInvitation env (join_invitation (Team.id selectedTeam) tempExpireAt) ;;
     DB.incrementKeyUsage key_code ;;
     now <- DB.Date_now env ;;
     DB.updateTeam env (Team.id selectedTeam)
       (TeamUpdates.cached None None None (Some (Team.memberCount selectedTeam + 1)) (Some now)) ;;
     ret InvitationSent)
    (λ message,
      (if Js.includes "401" message || Js.includes "expired" message then
         DB.updateTeam env (Team.id selectedTeam)
           (TeamUpdates.cached None None (Some expired) None None) ;;
         ret tt
       else ret tt) ;;
      ret (InviteFailed message)).
End Join.

(** [!key.isUnlimited && !key.isTemp && key.usageCount > 0] *)
Definition key_is_used (key : AccessKey.t) : bool :=
  negb (AccessKey.isUnlimited key) && negb (AccessKey.isTemp key) &&
  (0 <? AccessKey.usageCount key)%N.

Definition join (email key_code : string) : M Response :=
  if negb (Js.truthy email) || negb (Js.truthy key_code) then ret MissingFields
  else
    key <- DB.getAccessKey key_code ;;
    match key with
    | None => ret InvalidKey
    | Some key =>
        if key_is_used key then ret KeyAlreadyUsed
        else
          teams <- DB.listTeams ;;
          r <- scan_teams email key_code key teams None ;;
          match r with
          | Answered response => ret response
          | Scanned None => ret NoAvailableTeams
          | Scanned (Some selectedTeam) => invite_selected email key_code key selectedTeam
          end
    end.

(** The handler under the error middleware. *)
Definition join_handler (email key_code : string) (w : World) : Response * World :=
  match join email key_code w with
  | (Returns response, w') => (response, w')
  | (Throws message, w') => (ServerError message, w')
  end.

(** *** The request body *)

(** [join] above is the handler on two string fields.  The fields come
    from [await ctx.request.body.json()], which is untyped: that statement
    throws for a body that is no JSON, and its destructuring for the JSON
    [null]; otherwise [email] and [key_code] are any two JSON values,
    [Undefined] for an absent field. *)
Inductive JoinBody :=
| Unreadable (message : string)
| Fields (email key_code : Json.value).

Section JoinRequest.
(** The message of the [TypeError] of [kv.get] for a key part that is an
    object or an array. *)
Variable invalid_key_part : string.

(** The handler on any body.  [!email || !key_code] is the test of line
    641 on any value; [kv.get(["keys", key_code])] throws for an object and
    finds nothing for a number or [true], the codes stored being strings;
    [email.toLowerCase()] at line 666, outside any [try], throws for an
    email that is no string. *)
Definition join_request (body : JoinBody) : M Response :=
  match body with
  | Unreadable message => throw message
  | Fields email key_code =>
      if negb (Json.truthy email) || negb (Json.truthy key_code) then ret MissingFields
      else
        match key_code with
        | Json.Other => throw invalid_key_part
        | Json.Str code =>
            match email with
            | Json.Str email => join email code
            | _ =>
                key <- DB.getAccessKey code ;;
                match key with
                | None => ret InvalidKey
                | Some key =>
                    if key_is_used key then ret KeyAlreadyUsed
                    else
                      DB.listTeams ;;
                      throw "email.toLowerCase is not a function"
                end
            end
        | _ => ret InvalidKey
        end
  end.

(** The route under the error middleware. *)
Definition join_request_handler (body : JoinBody) (w : World) : Response * World :=
  match join_request body w with
  | (Returns response, w') => (response, w')
  | (Throws message, w') => (ServerError message, w')
  end.
End JoinRequest.

(** ** [DELETE /api/admin/teams/:id/members/:userId] *)



(** ** [Deno.cron("Auto Kick Service", ...)] *)

(** [inv.isTemp && !inv.isConfirmed && inv.tempExpireAt &&
     Date.now() > inv.tempExpireAt && inv.status === 'success'];
    the clock is read only when the conjuncts before it hold. *)
Definition invite_expired (inv : Invitation.t) : M bool :=
  if Invitation.isTemp inv && negb (Invitation.isConfirmed inv) then
    match Invitation.tempExpireAt inv with
    | None => ret false
    | Some tempExpireAt =>
        if tempExpireAt =? 0 then ret false
        else
          now <- DB.Date_now env ;;
          ret ((tempExpireAt <? now) &&
               bool_decide (Invitation.status inv = success))
    end
  else ret false.

(** The body run for an expired invitation.  The branch taken when the
    member is found holds comments only. *)
Definition kick_expired (inv : Invitation.t) : M unit :=
  team <- DB.getTeam (Invitation.teamId inv) ;;
  match team with
  | None => ret tt
  | Some team =>
      try_catch
        (members <- fetchTeamMembers (Team.accessToken team) (Team.accountId team) ;;
         match members with
         | RosterOther => throw "members.find is not a function"
         | RosterArray items =>
             let member :=
               find (λ m, bool_decide (Member.email m = Some (Invitation.email inv))) items in
             match member with
             | Some _ => ret tt
             | None => ret tt
             end
         end)
        (λ _, ret tt)
  end.

Fixpoint expiry_pass (invites : list Invitation.t) : M unit :=
  match invites with
  | [] => ret tt
  | inv :: rest =>
      e <- invite_expired inv ;;
      (if e then kick_expired inv else ret tt) ;;
      expiry_pass rest
  end.

Definition auto_kick : M unit :=
  config <- DB.getAutoKickConfig ;;
  if negb (AutoKickConfig.enabled config) then ret tt
  else
    now <- DB.Date_now env ;;
    let currentHour := local_hour env now in
    if (currentHour <? AutoKickConfig.startHour config) ||
       (AutoKickConfig.endHour config <? currentHour) then ret tt
    else
      invites <- DB.listInvitations ;;
      expiry_pass invites.

Definition auto_kick_tick (w : World) : World := (auto_kick w).2.

End Handlers.

(** ** [main.ts]: the admin routes *)

(** The value of [JSON.parse(session_data)], as far as the routes read
    it: [session.accessToken], [session.account?.id],
    [session.accountId], [session.user?.id], [session.user?.email]. *)
Module Session.
Record t := mk {
  accessToken : option string;
  account_id : option string;
  accountId : option string;
  user_id : option string;
  user_email : option string
}.
End Session.

Inductive AddTeamResponse :=
| TeamAdded
| MissingAccessToken
| MissingAccountId
| InvalidSessionData.

(** [a || b] on optional strings: [undefined] and [""] are falsy. *)
Definition str_or (a b : option string) : option string :=
  match a with
  | Some s => if Js.truthy s then a else b
  | None => b
  end.

Definition opt_truthy (a : option string) : bool :=
  match a with
  | Some s => Js.truthy s
  | None => false
  end.

Section AdminRoutes.
Variable env : Env.

(** [POST /api/admin/teams]; [session] is [None] when [JSON.parse]
    throws or gives [null]. *)
Definition add_team (name : string) (session : option Session.t) : M AddTeamResponse :=
  match session with
  | None => ret InvalidSessionData
  | Some session =>
      if negb (opt_truthy (Session.accessToken session)) then ret MissingAccessToken
      else
        let accountId :=
          str_or (Session.account_id session)
            (str_or (Session.accountId session) (Session.user_id session)) in
        if negb (opt_truthy accountId) then ret MissingAccountId
        else
          DB.createTeam env name (default "" accountId)
            (default "" (Session.accessToken session)) None (Session.user_email session)
            None ;;
          ret TeamAdded
  end.

(** The loop of [POST /api/admin/keys], [n] iterations. *)
Fixpoint generate_loop (n : nat) (is_unlimited : bool) (createdKeys : list AccessKey.t)
    : M (list AccessKey.t) :=
  match n with
  | O => ret createdKeys
  | S n' =>
      id <- DB.randomUUID env ;;
      let code := Js.substring0 16 (Js.remove_dashes id) in
      key <- DB.createAccessKey env code None false (Some is_unlimited) None ;;
      generate_loop n' is_unlimited (createdKeys ++ [key])
  end.

(** [POST /api/admin/keys]: [for (let i = 0; i < (count || 1); i++)]
    with [isUnlimited: !!is_unlimited]. *)
Definition generate_keys (count : option Z) (is_unlimited : bool) : M (list AccessKey.t) :=
  generate_loop (Z.to_nat (Js.num_or count 1)) is_unlimited [].

(** [DELETE /api/admin/keys/:code] *)
Definition delete_key (code : string) : M unit := DB.deleteAccessKey code.

End AdminRoutes.

(** ** [revokeInvite] *)

Section Revoke.
(** [fetch url method] is the answer to the request: a thrown message,
    or the status and the text of the response. *)
Variable fetch : string → string → string + (Z * string).

Definition revoke_attempts (baseUrl : string) : list (string * string) :=
  [(baseUrl, "DELETE"); (baseUrl +:+ "/revoke", "POST"); (baseUrl +:+ "/cancel", "POST")].

Definition revoke_failed (lastStatus : Z) (lastText : string) : string :=
  "Revoke invite failed: " +:+ pretty lastStatus +:+ " - " +:+ lastText.

(** The [for (const attempt of attempts)] loop and the [throw] after it;
    the second component lists the requests sent. *)
Fixpoint revoke_loop (attempts : list (string * string)) (lastStatus : Z) (lastText : string)
    : Outcome bool * list (string * string) :=
  match attempts with
  | [] => (Throws (revoke_failed lastStatus lastText), [])
  | attempt :: rest =>
      match fetch attempt.1 attempt.2 with
      | inl message => (Throws message, [attempt])
      | inr (status, text) =>
          if (status =? 200) || (status =? 204) then (Returns true, [attempt])
          else if negb (status =? 405) then
            (Throws (revoke_failed status text), [attempt])
          else
            let r := revoke_loop rest status text in (r.1, attempt :: r.2)
      end
  end.

Definition revoke_url (accountId inviteId : string) : string :=
  "https://chatgpt.com/backend-api/accounts/" +:+ accountId +:+ "/invites/" +:+ inviteId.

Definition revokeInvite (accountId inviteId : string) : Outcome bool * list (string * string) :=
  revoke_loop (revoke_attempts (revoke_url accountId inviteId)) 0 "".
End Revoke.

(** ** Vocabulary of the statements *)

(** Every team is stored under its own id, as [DB.createTeam] writes it
    and as [DB.updateTeam] keeps it for updates that do not set the id. *)
Definition teams_wf (w : World) : Prop :=
  map_Forall (λ k t, Team.id t = k) (teams w).

(** A list of teams read from the store that the store still agrees
    with. *)
Definition snapshot_ok (ts : list Team.t) (w : World) : Prop :=
  NoDup (Team.id <$> ts) ∧ ∀ t, t ∈ ts → teams w !! Team.id t = Some t.

(** A part of the auto-kick job that removes nobody and logs no
    removal. *)
Definition no_removal (w w' : World) : Prop :=
  kick_calls w' = kick_calls w ∧ kick_logs w' = kick_logs w.

(** A computation that keeps a property of the world, however it ends. *)
Definition preserves (P : World → Prop) {A} (m : M A) : Prop :=
  ∀ w, P w → P (m w).2.

(** What [DB.incrementKeyUsage] does to the key store. *)
Definition bump_key (code : string) (m : gmap string AccessKey.t) : gmap string AccessKey.t :=
  match m !! code with
  | Some key => <[code := DB.bump key]> m
  | None => m
  end.

Section Observations.
Variable env : Env.

(** The non-owner members the scan of [join] sees for a listed team:
    none for a team it skips or whose roster cannot be fetched. *)
Definition live_roster (t : Team.t) : option (list Member.t) :=
  match Team.tokenStatus t with
  | expired => None
  | active =>
      match members env (Team.accessToken t) (Team.accountId t) with
      | inl _ => None
      | inr roster => Some (nonOwnerMembers roster)
      end
  end.

(** The scan finds [needle] among the member emails of the team. *)
Definition is_member (needle : string) (t : Team.t) : bool :=
  match live_roster t with
  | Some nonOwner => Js.array_includes needle (memberEmails nonOwner)
  | None => false
  end.

(** The scan counts fewer than 4 non-owner members in the team. *)
Definition has_room (t : Team.t) : bool :=
  match live_roster t with
  | Some nonOwner => Z.of_nat (length nonOwner) <? 4
  | None => false
  end.

(** The number of non-owner members the scan counts in the team. *)
Definition member_count (t : Team.t) : Z :=
  match live_roster t with
  | Some nonOwner => Z.of_nat (length nonOwner)
  | None => 0
  end.

(** The roster requests a scan over [ts] sends. *)
Definition scan_fetches (ts : list Team.t) : list (string * string) :=
  (λ t, (Team.accessToken t, Team.accountId t)) <$>
    filter (λ t, Team.tokenStatus t = active) ts.

(** The record [DB.updateTeam] returns for a team whose roster of
    [n] non-owner members was fetched at time [now]. *)
Definition refreshed (t : Team.t) (n : Z) (now : Z) : Team.t :=
  DB.spread_team t (TeamUpdates.cached None None (Some active) (Some n) None) now.

(** The temp-expiry [join] computes from a clock reading [now]. *)
Definition expiry_of (key : AccessKey.t) (now : Z) : option Z :=
  if AccessKey.isTemp key
  then Some (now + Js.num_or (AccessKey.tempHours key) 24 * 3600000)
  else None.

(** The worlds before and after a successful [join] of [email] with
    [key_code] into team [teamId]: one record added to the ledger, its
    index entry written, the key's usage incremented. *)
Definition joined_record (email key_code : string) (key : AccessKey.t)
    (teamId : string) (w w' : World) : Prop :=
  ∃ (inv : Invitation.t) (n : nat),
    invitations w' = <[Invitation.id inv := inv]> (invitations w) ∧
    invitations_by_email w' =
      <[(DB.normalize email, teamId) := Invitation.id inv]> (invitations_by_email w) ∧
    Invitation.teamId inv = teamId ∧
    Invitation.email inv = DB.normalize email ∧
    Invitation.keyCode inv = Some key_code ∧
    Invitation.status inv = success ∧
    Invitation.isTemp inv = AccessKey.isTemp key ∧
    Invitation.isConfirmed inv = false ∧
    (clock_reads w ≤ n < clock_reads w')%nat ∧
    Invitation.tempExpireAt inv = expiry_of key (clock env n) ∧
    keys w' = bump_key key_code (keys w).

(** A part of a handler that writes neither keys nor ledger, and does
    not invite or remove anybody. *)
Definition scan_frame (w w' : World) : Prop :=
  keys w' = keys w ∧
  invitations w' = invitations w ∧
  invitations_by_email w' = invitations_by_email w ∧
  kick_logs w' = kick_logs w ∧
  config w' = config w ∧
  uuid_draws w' = uuid_draws w ∧
  invite_calls w' = invite_calls w ∧
  kick_calls w' = kick_calls w ∧
  (clock_reads w ≤ clock_reads w')%nat.
End Observations.

(** *** Seats, counted on the roster itself *)

Definition is_owner (m : Member.t) : bool :=
  bool_decide (Member.role m = Some "account-owner").

(** The number of members of a roster who are not the account owner. *)
Fixpoint non_owner_count (items : list Member.t) : Z :=
  match items with
  | [] => 0
  | m :: rest => (if is_owner m then 0 else 1) + non_owner_count rest
  end.

(** The roster the remote service answers for a team that is not marked
    expired; an answer that is no array holds nobody. *)
Definition fetched_roster (env : Env) (t : Team.t) : option (list Member.t) :=
  match Team.tokenStatus t with
  | expired => None
  | active =>
      match members env (Team.accessToken t) (Team.accountId t) with
      | inl _ => None
      | inr (RosterArray items) => Some items
      | inr RosterOther => Some []
      end
  end.

(** The non-owner member count of the team: 0 when there is no roster. *)
Definition seats_taken (env : Env) (t : Team.t) : Z :=
  match fetched_roster env t with
  | Some items => non_owner_count items
  | None => 0
  end.

(** The team is not marked expired, its roster can be fetched, and its
    non-owner member count is strictly below 4. *)
Definition below_capacity (env : Env) (t : Team.t) : bool :=
  match fetched_roster env t with
  | Some items => non_owner_count items <? 4
  | None => false
  end.

(** Every ledger record is stored under its own id, carries a normalized
    email, and has an entry in the secondary index under its
    (email, team) pair. *)
Definition ledger_wf (w : World) : Prop :=
  map_Forall
    (λ id inv,
       Invitation.id inv = id ∧
       DB.normalize (Invitation.email inv) = Invitation.email inv ∧
       is_Some (invitations_by_email w !! (Invitation.email inv, Invitation.teamId inv)))
    (invitations w).


(** Every ledger record is stored under its own id, as
    [DB.createInvitation] writes it. *)
Definition ledger_ids_ok (w : World) : Prop :=
  map_Forall (λ id inv, Invitation.id inv = id) (invitations w).

(** The record is one of team [teamId] for the email that normalizes to
    [normalized]. *)
Definition for_team_email (teamId normalized : string) (inv : Invitation.t) : Prop :=
  Invitation.teamId inv = teamId ∧ DB.normalize (Invitation.email inv) = normalized.

(** ** A pool of teams to run the handlers on *)

Module Scenario.

Definition user (email : string) : Member.t :=
  Member.mk ("user-" +:+ email) (Some email) (Some "standard-user").

Definition owner : Member.t :=
  Member.mk "user-owner" (Some "owner@x.com") (Some "account-owner").

Definition team (id name accountId accessToken : string) (createdAt : Z) : Team.t :=
  Team.mk id name accountId accessToken None None 0 active 0 None createdAt createdAt.

Definition teamA := team "tA" "Team A" "accA" "tokA" 400.
Definition teamB := team "tB" "Team B" "accB" "tokB" 200.
Definition teamC := team "tC" "Team C" "accC" "tokC" 300.
Definition teamD := team "tD" "Team D" "accD" "tokD" 100.
Definition teamE := team "tE" "Team E" "accE" "tokE" 500.

(** Team A and D are full, B and E have [u@x.com] as a member, C has
    room. *)
Definition rosters (accountId : string) : string + Roster :=
  if String.eqb accountId "accA" then
    inr (RosterArray [owner; user "a@x.com"; user "b@x.com"; user "c@x.com"; user "d@x.com"])
  else if String.eqb accountId "accB" then
    inr (RosterArray [owner; user "U@x.com"])
  else if String.eqb accountId "accC" then
    inr (RosterArray [user "x@x.com"])
  else if String.eqb accountId "accD" then
    inr (RosterArray [user "e@x.com"; user "f@x.com"; user "g@x.com";
                      user "h@x.com"; user "i@x.com"])
  else if String.eqb accountId "accE" then
    inr (RosterArray [owner; user "u@x.com"; user "y@x.com"])
  else inl "API Error: 404".

Definition env : Env := {|
  clock := λ _, 1000;
  uuid := λ n, "uuid-" +:+ String (ascii_of_nat (48 + n)) "";
  local_hour := λ _, 12;
  members := λ _ accountId, rosters accountId;
  invite := λ _ _ _, None;
  kick := λ _ _ _, None
|}.

Definition key (isTemp isUnlimited : bool) (tempHours : option Z) (usageCount : N) :=
  AccessKey.mk "k1" None isTemp isUnlimited tempHours usageCount 10.

Definition single_use := key false false None 0.
Definition used := key false false None 1.
Definition temp24 := key true false (Some 24) 0.
Definition temp0 := key true false (Some 0) 0.

Definition pool (ts : list Team.t) : gmap string Team.t :=
  list_to_map ((λ t, (Team.id t, t)) <$> ts).

Definition world (ts : list Team.t) (k : AccessKey.t) : World :=
  mkWorld (pool ts) {["k1" := k]} ∅ ∅ ∅ None 0 0 [] [] [].

(** A temp invitation of [u@x.com] into team E that expired at 500. *)
Definition expired_invitation : Invitation.t :=
  Invitation.mk "inv-1" "tE" "u@x.com" (Some "k1") success true (Some 500) false 100.

(** Team E alone, a ledger, and the service enabled for the whole
    day. *)
Definition ticking (ledger : gmap string Invitation.t) : World :=
  mkWorld (pool [teamE]) {["k1" := temp24]} ledger ∅ ∅
    (Some (AutoKickConfig.mk true 300 0 23)) 0 0 [] [] [].

End Scenario.

(** ** More vocabulary *)

(** What the scan of [join] leaves in the store for a listed team it
    passes without finding the email: the team as it was when it is marked
    expired, marked expired when its roster cannot be fetched, and else
    active with the number of non-owner members of the roster as cached
    count. *)
Definition after_scan (env : Env) (t : Team.t) (now : Z) : Team.t :=
  match Team.tokenStatus t with
  | expired => t
  | active =>
      match members env (Team.accessToken t) (Team.accountId t) with
      | inl _ => DB.spread_team t (TeamUpdates.cached None None (Some expired) None None) now
      | inr roster => refreshed t (Z.of_nat (length (nonOwnerMembers roster))) now
      end
  end.

(** A team whose roster cannot be fetched, and a remote service that
    refuses every invite with the given message. *)
Definition teamF : Team.t := Scenario.team "tF" "Team F" "accF" "tokF" 600.

Definition refusing (message : string) : Env := {|
  clock := clock Scenario.env;
  uuid := uuid Scenario.env;
  local_hour := local_hour Scenario.env;
  members := members Scenario.env;
  invite := λ _ _ _, Some message;
  kick := λ _ _ _, Some message
|}.

(** A team of the owner and three members: there is room in it only
    because the owner takes no seat. *)
Definition teamG : Team.t := Scenario.team "tG" "Team G" "accG" "tokG" 350.

Definition with_teamG : Env := {|
  clock := clock Scenario.env;
  uuid := uuid Scenario.env;
  local_hour := local_hour Scenario.env;
  members := λ accessToken accountId,
    if String.eqb accountId "accG" then
      inr (RosterArray [Scenario.owner; Scenario.user "p@x.com";
                        Scenario.user "q@x.com"; Scenario.user "r@x.com"])
    else members Scenario.env accessToken accountId;
  invite := invite Scenario.env;
  kick := kick Scenario.env
|}.

(** What every key made by [POST /api/admin/keys] looks like. *)
Definition generated (is_unlimited : bool) (key : AccessKey.t) : Prop :=
  AccessKey.isTemp key = false ∧
  AccessKey.isUnlimited key = is_unlimited ∧
  AccessKey.usageCount key = 0%N ∧
  AccessKey.tempHours key = None ∧
  AccessKey.teamId key = None ∧
  (String.length (AccessKey.code key) ≤ 16)%nat.

(** The store and the lists of invites and removals are the same in both
    worlds. *)
Definition same_store (w w' : World) : Prop :=
  teams w' = teams w ∧ keys w' = keys w ∧
  invitations w' = invitations w ∧
  invitations_by_email w' = invitations_by_email w ∧
  kick_logs w' = kick_logs w ∧ config w' = config w ∧
  uuid_draws w' = uuid_draws w ∧
  invite_calls w' = invite_calls w ∧ kick_calls w' = kick_calls w.

(** An invitation the expiry pass of the auto-kick job passes over at
    every reading of the clock: not temp, or confirmed, or not successful,
    or without an expiry, or with an expiry no reading is later than. *)
Definition never_due (env : Env) (inv : Invitation.t) : Prop :=
  Invitation.isTemp inv = false ∨
  Invitation.isConfirmed inv = true ∨
  Invitation.status inv ≠ success ∨
  ∀ e, Invitation.tempExpireAt inv = Some e → ∀ n, clock env n ≤ e.

(** * Properties *)

(** ** Strings *)

Module JsFacts.
Import Js.

Lemma lower_char_idem c : lower_char (lower_char c) = lower_char c.
Proof. destruct c as [[] [] [] [] [] [] [] []]; reflexivity. Qed.

Lemma is_space_lower_char c : is_space (lower_char c) = is_space c.
Proof. destruct c as [[] [] [] [] [] [] [] []]; reflexivity. Qed.

Lemma toLowerCase_idem s : toLowerCase (toLowerCase s) = toLowerCase s.
Proof. induction s as [|c s IH]; simpl; [done|]. by rewrite lower_char_idem, IH. Qed.

Lemma truthy_toLowerCase s : truthy (toLowerCase s) = truthy s.
Proof. by destruct s. Qed.

Lemma toLowerCase_empty s : toLowerCase s = EmptyString → s = EmptyString.
Proof. by destruct s. Qed.

Lemma trimStart_toLowerCase s : trimStart (toLowerCase s) = toLowerCase (trimStart s).
Proof.
  induction s as [|c s IH]; simpl; [done|].
  rewrite is_space_lower_char. by destruct (is_space c).
Qed.

Lemma trimEnd_toLowerCase s : trimEnd (toLowerCase s) = toLowerCase (trimEnd s).
Proof.
  induction s as [|c s IH]; simpl; [done|].
  rewrite IH, is_space_lower_char.
  destruct (trimEnd s); simpl; [by destruct (is_space c)|done].
Qed.

Lemma trim_toLowerCase s : trim (toLowerCase s) = toLowerCase (trim s).
Proof. unfold trim. by rewrite trimStart_toLowerCase, trimEnd_toLowerCase. Qed.

Lemma trimEnd_idem s : trimEnd (trimEnd s) = trimEnd s.
Proof.
  induction s as [|c s IH]; simpl; [done|].
  destruct (trimEnd s) as [|c' s'] eqn:E.
  - destruct (is_space c) eqn:Ec; simpl; [done|]. by rewrite Ec.
  - simpl in *. by rewrite IH.
Qed.

Lemma trimStart_no_leading_space s : no_leading_space (trimStart s).
Proof.
  induction s as [|c s IH]; simpl; [done|].
  destruct (is_space c) eqn:E; [done|]. by simpl.
Qed.

Lemma trimStart_id s : no_leading_space s → trimStart s = s.
Proof. destruct s as [|c s]; simpl; [done|]. by intros ->. Qed.

Lemma trimEnd_no_leading_space s : no_leading_space s → no_leading_space (trimEnd s).
Proof.
  destruct s as [|c s]; simpl; [done|]. intros Hc.
  destruct (trimEnd s); simpl; [by rewrite Hc|done].
Qed.

Lemma trim_idem s : trim (trim s) = trim s.
Proof.
  unfold trim.
  rewrite (trimStart_id (trimEnd _)).
  - apply trimEnd_idem.
  - apply trimEnd_no_leading_space, trimStart_no_leading_space.
Qed.

Lemma array_includes_elem x (l : list string) : array_includes x l = true ↔ x ∈ l.
Proof.
  unfold array_includes. rewrite existsb_exists. split.
  - intros (y & Hy & E). apply String.eqb_eq in E. subst. by apply list_elem_of_In.
  - intros H. exists x. split; [by apply list_elem_of_In|apply String.eqb_refl].
Qed.

End JsFacts.

Lemma normalize_idem email : DB.normalize (DB.normalize email) = DB.normalize email.
Proof.
  unfold DB.normalize.
  by rewrite JsFacts.trim_toLowerCase, JsFacts.toLowerCase_idem, JsFacts.trim_idem.
Qed.

Lemma normalize_trimmed email : Js.trim email = email → DB.normalize email = Js.toLowerCase email.
Proof. unfold DB.normalize. by intros ->. Qed.

(** ** Sorting and listing *)

Section SortFacts.
Context {A : Type} (cmp : A → A → Z).

Lemma sort_insert_perm x l : Js.sort_insert cmp x l ≡ₚ x :: l.
Proof.
  induction l as [|y r IH]; simpl; [done|].
  destruct (0 <? cmp x y); [|done].
  rewrite IH. apply Permutation_swap.
Qed.

Lemma sort_perm l : Js.sort cmp l ≡ₚ l.
Proof.
  induction l as [|x l IH]; simpl; [done|].
  by rewrite sort_insert_perm, IH.
Qed.

Context (R : A → A → Prop).
Hypothesis R_trans : ∀ x y z, R x y → R y z → R x z.
Hypothesis cmp_le : ∀ x y, cmp x y ≤ 0 → R x y.
Hypothesis cmp_gt : ∀ x y, 0 < cmp x y → R y x.

Lemma sort_insert_sorted x l :
  StronglySorted R l → StronglySorted R (Js.sort_insert cmp x l).
Proof.
  induction 1 as [|y r Hr IH Hy]; simpl.
  - repeat constructor.
  - destruct (Z.ltb_spec 0 (cmp x y)) as [Hgt|Hle].
    + constructor; [done|].
      apply Forall_forall. intros z Hz.
      apply list_elem_of_In, (Permutation_in _ (sort_insert_perm x r)) in Hz.
      destruct Hz as [<-|Hz]; [by apply cmp_gt|].
      by eapply Forall_forall in Hy; [|apply list_elem_of_In].
    + constructor; [by constructor|].
      constructor; [by apply cmp_le|].
      eapply Forall_impl; [exact Hy|]. intros z Hz. simpl in Hz.
      eapply R_trans; [|exact Hz]. by apply cmp_le.
Qed.

Lemma sort_sorted l : StronglySorted R (Js.sort cmp l).
Proof.
  induction l as [|x l IH]; simpl; [constructor|].
  by apply sort_insert_sorted.
Qed.
End SortFacts.

Lemma kv_list_perm {V} (m : gmap string V) : DB.kv_list m ≡ₚ (map_to_list m).*2.
Proof. unfold DB.kv_list. by rewrite sort_perm. Qed.

Lemma elem_of_kv_list {V} (m : gmap string V) v :
  v ∈ DB.kv_list m ↔ ∃ k, m !! k = Some v.
Proof.
  rewrite kv_list_perm, list_elem_of_fmap. split.
  - intros ([k v'] & -> & H). exists k. by apply elem_of_map_to_list.
  - intros (k & H). exists (k, v). split; [done|]. by apply elem_of_map_to_list.
Qed.

(** ** One iteration of the scan *)

Section ScanStep.
Variable env : Env.
Variables (email key_code : string) (key : AccessKey.t).

Abbreviation scan_step := (scan_team env email key_code key).
Abbreviation scan_all := (scan_teams env email key_code key).

Lemma scan_team_expired t sel w :
  Team.tokenStatus t = expired →
  scan_step t sel w = (Returns (Scanned sel), w).
Proof. intros H. unfold scan_team. by rewrite H. Qed.

Lemma scan_team_missing t sel w :
  Team.tokenStatus t = active →
  teams w !! Team.id t = None →
  scan_step t sel w =
    (Throws "Team not found", log_fetch (Team.accessToken t, Team.accountId t) w).
Proof.
  intros Ha Hl. unfold scan_team. rewrite Ha.
  unfold try_catch, bind, fetchTeamMembers, DB.updateTeam, DB.getTeam, gets, bind, throw.
  destruct (members env _ _); simpl; rewrite ?Hl; simpl; by rewrite ?Hl.
Qed.

Lemma scan_team_fetch_failed t sel w st message :
  Team.tokenStatus t = active →
  members env (Team.accessToken t) (Team.accountId t) = inl message →
  teams w !! Team.id t = Some st →
  scan_step t sel w =
    (Returns (Scanned sel),
     set_teams <[Team.id t :=
         DB.spread_team st (TeamUpdates.cached None None (Some expired) None None)
           (clock env (clock_reads w))]>
       (set_clock_reads (S (clock_reads w))
          (log_fetch (Team.accessToken t, Team.accountId t) w))).
Proof.
  intros Ha Hm Hl. unfold scan_team. rewrite Ha.
  unfold try_catch, bind, fetchTeamMembers, DB.updateTeam, DB.getTeam, gets, bind, throw.
  rewrite Hm. simpl. by rewrite Hl.
Qed.

Ltac run :=
  unfold scan_team, invite_selected, try_catch, bind, fetchTeamMembers,
    inviteToTeam, tempExpiry, DB.createInvitation, DB.incrementKeyUsage,
    DB.getAccessKey, DB.updateTeam, DB.getTeam, DB.randomUUID, DB.Date_now,
    gets, modify, bind, ret, throw;
  simpl.

Lemma scan_team_refreshed t sel w st roster :
  Team.tokenStatus t = active →
  members env (Team.accessToken t) (Team.accountId t) = inr roster →
  teams w !! Team.id t = Some st →
  Js.array_includes (normalizedEmail email) (memberEmails (nonOwnerMembers roster)) = false →
  let n := Z.of_nat (length (nonOwnerMembers roster)) in
  let st' := refreshed st n (clock env (clock_reads w)) in
  scan_step t sel w =
    (Returns (Scanned (if (n <? 4) && negb (bool_decide (is_Some sel))
                       then Some st' else sel)),
     set_teams <[Team.id t := st']>
       (set_clock_reads (S (clock_reads w))
          (log_fetch (Team.accessToken t, Team.accountId t) w))).
Proof.
  intros Ha Hm Hl Hi n st'. run. rewrite Ha, Hm. simpl. rewrite Hl. simpl.
  rewrite Hi. by destruct (_ && _).
Qed.

Lemma scan_team_member t sel w st roster :
  Team.tokenStatus t = active →
  members env (Team.accessToken t) (Team.accountId t) = inr roster →
  teams w !! Team.id t = Some st →
  Js.array_includes (normalizedEmail email) (memberEmails (nonOwnerMembers roster)) = true →
  ∃ w',
    scan_step t sel w = (Returns (Answered (AlreadyMember (Team.name st) email)), w') ∧
    teams w' =
      <[Team.id t := refreshed st (Z.of_nat (length (nonOwnerMembers roster)))
                       (clock env (clock_reads w))]> (teams w) ∧
    fetch_calls w' = (fetch_calls w ++ [(Team.accessToken t, Team.accountId t)])%list ∧
    invite_calls w' = invite_calls w ∧
    kick_calls w' = kick_calls w ∧
    kick_logs w' = kick_logs w ∧
    config w' = config w ∧
    joined_record env email key_code key (Team.id st) w w'.
Proof.
  intros Ha Hm Hl Hi. run. rewrite Ha, Hm. simpl. rewrite Hl. simpl. rewrite Hi.
  unfold joined_record, expiry_of, bump_key.
  destruct (AccessKey.isTemp key) eqn:Et; simpl;
    destruct (keys w !! key_code) eqn:Ek; simpl;
    (eexists; split; [reflexivity|]; simpl; repeat split; try done;
     eexists (Invitation.mk _ _ _ _ _ _ _ _ _), _; simpl;
     repeat split; try reflexivity; try lia; try done).
  all: rewrite ?Et; try reflexivity.
Qed.

Lemma scan_frame_refl w : scan_frame w w.
Proof. by repeat split. Qed.

Lemma scan_frame_trans w1 w2 w3 : scan_frame w1 w2 → scan_frame w2 w3 → scan_frame w1 w3.
Proof.
  unfold scan_frame. intros (?&?&?&?&?&?&?&?&?) (?&?&?&?&?&?&?&?&?).
  repeat split; try congruence. lia.
Qed.

Lemma joined_record_frame_l teamId w1 w2 w3 :
  scan_frame w1 w2 →
  joined_record env email key_code key teamId w2 w3 →
  joined_record env email key_code key teamId w1 w3.
Proof.
  intros (Hk&Hi&Hx&_&_&_&_&_&Hc) (inv & n & H).
  exists inv, n. rewrite <- Hk, <- Hi, <- Hx.
  destruct H as (?&?&?&?&?&?&?&?&?&?&?). repeat split; try done; try lia.
Qed.

(** What one iteration does to the team store. *)
Lemma scan_team_teams t sel w :
  let w' := (scan_step t sel w).2 in
  (∀ k, k ≠ Team.id t → teams w' !! k = teams w !! k) ∧
  (∀ k, is_Some (teams w' !! k) ↔ is_Some (teams w !! k)) ∧
  (teams_wf w → teams_wf w').
Proof.
  assert (Hins : ∀ st st' (w' : World),
    teams w !! Team.id t = Some st → Team.id st' = Team.id st →
    teams w' = <[Team.id t := st']> (teams w) →
    (∀ k, k ≠ Team.id t → teams w' !! k = teams w !! k) ∧
    (∀ k, is_Some (teams w' !! k) ↔ is_Some (teams w !! k)) ∧
    (teams_wf w → teams_wf w')).
  { intros st st' w' Hl Hid Ht. unfold teams_wf. rewrite Ht. split; [|split].
    - intros k Hk. by rewrite lookup_insert_ne.
    - intros k. destruct (decide (k = Team.id t)) as [->|Hk].
      + rewrite lookup_insert_eq, Hl. split; eauto.
      + by rewrite lookup_insert_ne.
    - intros Hwf. apply map_Forall_insert_2; [|done].
      rewrite Hid. by apply (Hwf _ _ Hl). }
  destruct (Team.tokenStatus t) eqn:Ha.
  2: { rewrite scan_team_expired by done. simpl. tauto. }
  destruct (teams w !! Team.id t) as [st|] eqn:Hl.
  2: { rewrite scan_team_missing by done. simpl. tauto. }
  destruct (members env (Team.accessToken t) (Team.accountId t)) as [msg|roster] eqn:Hm.
  { erewrite scan_team_fetch_failed by done.
    by eapply (Hins st); [done| |simpl; reflexivity]. }
  destruct (Js.array_includes (normalizedEmail email)
              (memberEmails (nonOwnerMembers roster))) eqn:Hi.
  - destruct (scan_team_member t sel w st roster Ha Hm Hl Hi) as (w' & -> & Ht & _).
    by eapply (Hins st); [done| |exact Ht].
  - erewrite scan_team_refreshed by done.
    by eapply (Hins st); [done| |simpl; reflexivity].
Qed.

(** What one iteration does to everything but the team store. *)
Lemma scan_team_outcome t sel w :
  match scan_step t sel w with
  | (Returns (Answered r), w') =>
      ∃ st, teams w !! Team.id t = Some st ∧
            r = AlreadyMember (Team.name st) email ∧
            invite_calls w' = invite_calls w ∧
            kick_calls w' = kick_calls w ∧
            kick_logs w' = kick_logs w ∧
            joined_record env email key_code key (Team.id st) w w'
  | (_, w') => scan_frame w w'
  end.
Proof.
  destruct (Team.tokenStatus t) eqn:Ha.
  2: { rewrite scan_team_expired by done. apply scan_frame_refl. }
  destruct (teams w !! Team.id t) as [st|] eqn:Hl.
  2: { rewrite scan_team_missing by done. by repeat split. }
  destruct (members env (Team.accessToken t) (Team.accountId t)) as [msg|roster] eqn:Hm.
  { erewrite scan_team_fetch_failed by done. repeat split; simpl; lia. }
  destruct (Js.array_includes (normalizedEmail email)
              (memberEmails (nonOwnerMembers roster))) eqn:Hi.
  - destruct (scan_team_member t sel w st roster Ha Hm Hl Hi)
      as (w' & -> & _ & _ & ? & ? & ? & ? & ?).
    by exists st.
  - erewrite scan_team_refreshed by done. repeat split; simpl; lia.
Qed.

(** ** The whole scan *)

Lemma scan_teams_app l1 l2 sel w :
  scan_all (l1 ++ l2) sel w =
    match scan_all l1 sel w with
    | (Returns (Scanned sel'), w') => scan_all l2 sel' w'
    | other => other
    end.
Proof.
  revert sel w. induction l1 as [|t l1 IH]; intros sel w; simpl; [done|].
  unfold bind.
  by destruct (scan_step t sel w) as [[[r|sel']|e] w']; simpl.
Qed.

(** Whatever the store holds, a scan leaves the handler only with an
    already-a-member answer, and until then it writes neither key nor
    ledger and invites nobody. *)
Lemma scan_teams_outcome ts sel w :
  match scan_all ts sel w with
  | (Returns (Answered r), w') =>
      ∃ name teamId,
        r = AlreadyMember name email ∧
        invite_calls w' = invite_calls w ∧
        kick_calls w' = kick_calls w ∧
        kick_logs w' = kick_logs w ∧
        joined_record env email key_code key teamId w w'
  | (_, w') => scan_frame w w'
  end.
Proof.
  revert sel w. induction ts as [|t ts IH]; intros sel w; simpl.
  { apply scan_frame_refl. }
  unfold bind. pose proof (scan_team_outcome t sel w) as Hstep.
  destruct (scan_step t sel w) as [[[r|sel']|e] w1]; simpl; try done.
  - destruct Hstep as (st & _ & -> & ? & ? & ? & ?). by exists (Team.name st), (Team.id st).
  - specialize (IH sel' w1).
    destruct (scan_all ts sel' w1) as [[[r|sel'']|e] w2].
    + destruct IH as (name & teamId & -> & Hi & Hk & Hl & Hj).
      destruct Hstep as (?&?&?&?&?&?&Hi1&Hk1&?).
      exists name, teamId. repeat split; try congruence.
      eapply joined_record_frame_l; [|exact Hj]. by repeat split.
    + by eapply scan_frame_trans.
    + by eapply scan_frame_trans.
Qed.

(** ** The scan over a snapshot of the store *)

Lemma snapshot_ok_cons t ts w :
  snapshot_ok (t :: ts) w →
  teams w !! Team.id t = Some t ∧ (Team.id t ∉ Team.id <$> ts) ∧ snapshot_ok ts w.
Proof.
  intros [Hnd Hl]. rewrite fmap_cons in Hnd. apply NoDup_cons in Hnd as [Hn Hnd].
  split; [apply Hl; left|]. split; [done|]. split; [done|].
  intros t' Ht'. apply Hl. by right.
Qed.

Lemma snapshot_ok_step t ts sel w :
  snapshot_ok (t :: ts) w → snapshot_ok ts (scan_step t sel w).2.
Proof.
  intros (_ & Hn & Hnd & Hl)%snapshot_ok_cons.
  destruct (scan_team_teams t sel w) as (Hne & _ & _).
  split; [done|]. intros t' Ht'. rewrite Hne; [by apply Hl|].
  intros E. apply Hn. rewrite <- E. by apply list_elem_of_fmap_2.
Qed.

Lemma scan_team_no_member t sel w :
  teams w !! Team.id t = Some t →
  is_member env (normalizedEmail email) t = false →
  ∃ w',
    scan_step t sel w =
      (Returns (Scanned (if has_room env t && negb (bool_decide (is_Some sel))
                         then Some (refreshed t (member_count env t)
                                      (clock env (clock_reads w)))
                         else sel)), w') ∧
    fetch_calls w' = (fetch_calls w ++ scan_fetches [t])%list.
Proof.
  intros Hl Hm. unfold is_member, has_room, member_count, live_roster, scan_fetches in *.
  rewrite filter_cons, filter_nil.
  destruct (Team.tokenStatus t) eqn:Ha.
  2: { rewrite scan_team_expired by done. eexists. split; [done|].
       rewrite decide_False by done. simpl. by rewrite app_nil_r. }
  rewrite decide_True by done.
  destruct (members env (Team.accessToken t) (Team.accountId t)) as [msg|roster] eqn:Hr.
  - erewrite scan_team_fetch_failed by done. by eexists.
  - erewrite scan_team_refreshed by done. by eexists.
Qed.

Lemma scan_teams_no_member ts :
  ∀ sel w,
    snapshot_ok ts w →
    Forall (λ t, is_member env (normalizedEmail email) t = false) ts →
    ∃ sel' w',
      scan_all ts sel w = (Returns (Scanned sel'), w') ∧
      scan_frame w w' ∧
      fetch_calls w' = (fetch_calls w ++ scan_fetches ts)%list ∧
      (∀ k, is_Some (teams w' !! k) ↔ is_Some (teams w !! k)) ∧
      (∀ k, (k ∉ Team.id <$> ts) → teams w' !! k = teams w !! k) ∧
      (teams_wf w → teams_wf w') ∧
      (is_Some sel → sel' = sel) ∧
      (sel = None → Forall (λ t, has_room env t = false) ts → sel' = None) ∧
      (sel = None → ∀ pre c post,
         ts = pre ++ c :: post →
         Forall (λ t, has_room env t = false) pre →
         has_room env c = true →
         ∃ now, sel' = Some (refreshed c (member_count env c) now)).
Proof.
  induction ts as [|t ts IH]; intros sel w Hsnap Hno.
  { exists sel, w. simpl. split; [done|]. split; [apply scan_frame_refl|].
    unfold scan_fetches. rewrite filter_nil, fmap_nil, app_nil_r.
    repeat split; try done.
    intros _ [|] ? ? E; simpl in E; discriminate. }
  apply Forall_cons in Hno as [Hnt Hno].
  pose proof (snapshot_ok_step t ts sel w Hsnap) as Hsnap'.
  apply snapshot_ok_cons in Hsnap as (Hl & Hn & _).
  destruct (scan_team_teams t sel w) as (Hne & Hdom & Hwf).
  pose proof (scan_team_outcome t sel w) as Hfr.
  destruct (scan_team_no_member t sel w Hl Hnt) as (w1 & Hstep & Hf1).
  rewrite Hstep in Hsnap', Hne, Hdom, Hwf, Hfr. simpl in *.
  set (sel1 := if has_room env t && negb (bool_decide (is_Some sel))
               then Some (refreshed t (member_count env t) (clock env (clock_reads w)))
               else sel) in *.
  destruct (IH sel1 w1 Hsnap' Hno)
    as (sel' & w' & Hrun & Hfr' & Hf' & Hdom' & Hne' & Hwf' & Hs1 & Hs2 & Hs3).
  exists sel', w'. unfold bind. rewrite Hstep, Hrun.
  split; [done|]. split; [by eapply scan_frame_trans|].
  split.
  { rewrite Hf', Hf1, <- app_assoc. f_equal. unfold scan_fetches.
    rewrite <- fmap_app. f_equal. rewrite !filter_cons, filter_nil.
    by destruct (decide _). }
  split; [intros k; by rewrite Hdom', Hdom|].
  split.
  { intros k Hk. rewrite ?fmap_cons, not_elem_of_cons in Hk. destruct Hk.
    rewrite Hne' by done. by apply Hne. }
  split; [auto|].
  split.
  { intros Hsel. rewrite Hs1; subst sel1.
    - by rewrite (bool_decide_eq_true_2 _ Hsel), andb_false_r.
    - rewrite (bool_decide_eq_true_2 _ Hsel), andb_false_r. done. }
  split.
  { intros -> [Ht Hroom]%Forall_cons. subst sel1. rewrite Ht in *. simpl in *.
    by apply Hs2. }
  intros -> pre c post E Hpre Hc. subst sel1.
  destruct pre as [|t' pre]; simpl in E; injection E as <- ->.
  - rewrite Hc in *. simpl in *. rewrite Hs1 by eauto. by eexists.
  - apply Forall_cons in Hpre as [Ht Hpre]. rewrite Ht in *. simpl in *.
    by eapply Hs3.
Qed.

Lemma snapshot_ok_app pre t post w :
  snapshot_ok (pre ++ t :: post) w →
  snapshot_ok pre w ∧ (Team.id t ∉ Team.id <$> pre) ∧ teams w !! Team.id t = Some t.
Proof.
  intros [Hnd Hl]. rewrite fmap_app, fmap_cons in Hnd.
  apply NoDup_app in Hnd as (Hpre & Hdisj & _).
  split; [split; [done|]|split].
  - intros t' Ht'. apply Hl. apply elem_of_app. by left.
  - intros Hin. apply (Hdisj _ Hin). left.
  - apply Hl. apply elem_of_app. right. left.
Qed.

Lemma is_member_true t :
  is_member env (normalizedEmail email) t = true →
  ∃ roster,
    Team.tokenStatus t = active ∧
    members env (Team.accessToken t) (Team.accountId t) = inr roster ∧
    Js.array_includes (normalizedEmail email) (memberEmails (nonOwnerMembers roster)) = true.
Proof.
  unfold is_member, live_roster.
  destruct (Team.tokenStatus t); [|done].
  destruct (members env _ _) as [|roster]; [done|]. by exists roster.
Qed.

(** The scan over a snapshot that has a first team with the email in
    its roster. *)
Lemma scan_teams_member pre m post sel w :
  snapshot_ok (pre ++ m :: post) w →
  Forall (λ t, is_member env (normalizedEmail email) t = false) pre →
  is_member env (normalizedEmail email) m = true →
  ∃ w',
    scan_all (pre ++ m :: post) sel w =
      (Returns (Answered (AlreadyMember (Team.name m) email)), w') ∧
    invite_calls w' = invite_calls w ∧
    kick_calls w' = kick_calls w ∧
    fetch_calls w' = fetch_calls w ++ scan_fetches (pre ++ [m]) ∧
    joined_record env email key_code key (Team.id m) w w' ∧
    (∀ k, is_Some (teams w' !! k) ↔ is_Some (teams w !! k)) ∧
    (teams_wf w → teams_wf w') ∧
    (∃ n now, teams w' !! Team.id m = Some (refreshed m n now)).
Proof.
  intros (Hpre & Hnin & Hl)%snapshot_ok_app Hno Hm.
  destruct (scan_teams_no_member pre sel w Hpre Hno)
    as (sel1 & w1 & Hrun & Hfr & Hf & Hdom & Hne & Hwf & _).
  rewrite scan_teams_app, Hrun. simpl. unfold bind.
  rewrite <- (Hne _ Hnin) in Hl.
  destruct (is_member_true m Hm) as (roster & Ha & Hr & Hi).
  destruct (scan_team_member m sel1 w1 m roster Ha Hr Hl Hi)
    as (w' & Hstep & Ht & Hf' & Hic & Hkc & _ & _ & Hj).
  destruct (scan_team_teams m sel1 w1) as (_ & Hdom' & Hwf').
  rewrite Hstep in Hdom', Hwf'. simpl in *.
  exists w'. rewrite Hstep. split; [done|].
  destruct Hfr as (?&?&?&?&?&?&Hic1&Hkc1&?).
  split; [congruence|]. split; [congruence|].
  split.
  { rewrite Hf', Hf, <- app_assoc. f_equal. unfold scan_fetches.
    rewrite filter_app, fmap_app. f_equal.
    rewrite filter_cons, filter_nil. by rewrite decide_True. }
  split; [by eapply joined_record_frame_l|].
  split; [intros k; by rewrite Hdom', Hdom|].
  split; [auto|].
  eexists _, _. rewrite Ht. apply lookup_insert_eq.
Qed.

(** ** Inviting on the selected team *)

Abbreviation invite_on := (invite_selected env email key_code key).

Lemma invite_selected_sent s w :
  invite env (Team.accessToken s) (Team.accountId s) email = None →
  is_Some (teams w !! Team.id s) →
  ∃ w',
    invite_on s w = (Returns InvitationSent, w') ∧
    invite_calls w' =
      invite_calls w ++ [(Team.accessToken s, Team.accountId s, email)] ∧
    kick_calls w' = kick_calls w ∧
    fetch_calls w' = fetch_calls w ∧
    joined_record env email key_code key (Team.id s) w w'.
Proof.
  intros Hinv [st Hl]. run. rewrite Hinv. simpl.
  unfold joined_record, expiry_of, bump_key.
  destruct (AccessKey.isTemp key) eqn:Et; simpl;
    destruct (keys w !! key_code) eqn:Ek; simpl; rewrite Hl; simpl;
    (eexists; split; [reflexivity|]; simpl; repeat split; try done;
     eexists (Invitation.mk _ _ _ _ _ _ _ _ _), _; simpl;
     repeat split; try reflexivity; try lia; try done).
  all: rewrite ?Et; try reflexivity.
Qed.

Lemma invite_selected_failed s w message :
  invite env (Team.accessToken s) (Team.accountId s) email = Some message →
  is_Some (teams w !! Team.id s) →
  ∃ w',
    invite_on s w = (Returns (InviteFailed message), w') ∧
    invite_calls w' =
      invite_calls w ++ [(Team.accessToken s, Team.accountId s, email)] ∧
    fetch_calls w' = fetch_calls w ∧
    keys w' = keys w ∧
    invitations w' = invitations w ∧
    invitations_by_email w' = invitations_by_email w.
Proof.
  intros Hinv [st Hl]. run. rewrite Hinv. simpl.
  destruct (_ || _); simpl; rewrite ?Hl; simpl; by eexists.
Qed.

(** Whatever the store holds, the invite step answers "sent" only after
    it has written the ledger and the key, and it never answers that the
    key was used. *)
Lemma invite_selected_outcome s w :
  match invite_on s w with
  | (Returns InvitationSent, w') =>
      invite_calls w' =
        invite_calls w ++ [(Team.accessToken s, Team.accountId s, email)] ∧
      joined_record env email key_code key (Team.id s) w w'
  | (Returns (InviteFailed _), _) | (Throws _, _) => True
  | (Returns _, _) => False
  end.
Proof.
  destruct (invite env (Team.accessToken s) (Team.accountId s) email) as [msg|] eqn:Hinv.
  - run. rewrite Hinv. simpl.
    destruct (_ || _); simpl; [|done].
    by destruct (teams w !! Team.id s).
  - destruct (teams w !! Team.id s) as [st|] eqn:Hl.
    + destruct (invite_selected_sent s w Hinv) as (w' & -> & ? & _ & _ & ?); eauto.
    + run. rewrite Hinv. simpl.
      destruct (AccessKey.isTemp key); simpl;
        destruct (keys w !! key_code); simpl; by rewrite Hl.
Qed.
End ScanStep.

(** ** The order of the scan *)

Lemma sorted_teams_perm w : DB.sorted_teams w ≡ₚ (map_to_list (teams w)).*2.
Proof. unfold DB.sorted_teams. by rewrite sort_perm, kv_list_perm. Qed.

Lemma elem_of_sorted_teams w t : t ∈ DB.sorted_teams w ↔ ∃ k, teams w !! k = Some t.
Proof. unfold DB.sorted_teams. by rewrite sort_perm, elem_of_kv_list. Qed.

Lemma sorted_teams_sorted w :
  StronglySorted (λ a b, Team.createdAt b ≤ Team.createdAt a) (DB.sorted_teams w).
Proof. apply sort_sorted; intros; lia. Qed.

Lemma sorted_teams_snapshot w : teams_wf w → snapshot_ok (DB.sorted_teams w) w.
Proof.
  intros Hwf. split.
  - rewrite sorted_teams_perm.
    assert (Team.id <$> (map_to_list (teams w)).*2 = (map_to_list (teams w)).*1) as ->.
    { rewrite <- list_fmap_compose. apply Forall_fmap_ext_1, Forall_forall.
      intros [k t] Hkt%elem_of_map_to_list. simpl. by apply (Hwf k t). }
    apply NoDup_fst_map_to_list.
  - intros t (k & Hk)%elem_of_sorted_teams. by rewrite (Hwf k t Hk).
Qed.

(** ** The handler *)

Section JoinFacts.
Variable env : Env.

Lemma join_run email key_code key w :
  Js.truthy email = true →
  Js.truthy key_code = true →
  keys w !! key_code = Some key →
  key_is_used key = false →
  join env email key_code w =
    match scan_teams env email key_code key (DB.sorted_teams w) None w with
    | (Returns (Answered response), w') => (Returns response, w')
    | (Returns (Scanned None), w') => (Returns NoAvailableTeams, w')
    | (Returns (Scanned (Some selectedTeam)), w') =>
        invite_selected env email key_code key selectedTeam w'
    | (Throws message, w') => (Throws message, w')
    end.
Proof.
  intros He Hk Hl Hu. unfold join. rewrite He, Hk. simpl.
  unfold bind at 1. unfold DB.getAccessKey, gets. rewrite Hl, Hu.
  unfold bind, DB.listTeams, gets.
  by destruct (scan_teams _ _ _ _ _ _ _) as [[[?|[?|]]|?] ?].
Qed.

Lemma join_missing_fields email key_code w :
  Js.truthy email && Js.truthy key_code = false →
  join env email key_code w = (Returns MissingFields, w).
Proof. unfold join. by destruct (Js.truthy email), (Js.truthy key_code). Qed.

Lemma join_invalid_key email key_code w :
  Js.truthy email = true → Js.truthy key_code = true →
  keys w !! key_code = None →
  join env email key_code w = (Returns InvalidKey, w).
Proof.
  intros He Hk Hl. unfold join. rewrite He, Hk. simpl.
  unfold bind, DB.getAccessKey, gets. by rewrite Hl.
Qed.

Lemma join_key_used email key_code key w :
  Js.truthy email = true → Js.truthy key_code = true →
  keys w !! key_code = Some key →
  key_is_used key = true →
  join env email key_code w = (Returns KeyAlreadyUsed, w).
Proof.
  intros He Hk Hl Hu. unfold join. rewrite He, Hk. simpl.
  unfold bind, DB.getAccessKey, gets. by rewrite Hl, Hu.
Qed.

(** Every way [join] answers a success has written one ledger record
    and the key's usage. *)
Lemma join_success_recorded email key_code key w r w' :
  keys w !! key_code = Some key →
  join_handler env email key_code w = (r, w') →
  match r with
  | AlreadyMember _ _ =>
      invite_calls w' = invite_calls w ∧
      ∃ teamId, joined_record env email key_code key teamId w w'
  | InvitationSent =>
      (∃ call, invite_calls w' = invite_calls w ++ [call]) ∧
      ∃ teamId, joined_record env email key_code key teamId w w'
  | KeyAlreadyUsed => key_is_used key = true ∧ w' = w
  | _ => True
  end.
Proof.
  intros Hl. unfold join_handler.
  destruct (Js.truthy email && Js.truthy key_code) eqn:Ht.
  2: { rewrite join_missing_fields by done. by intros [= <- <-]. }
  apply andb_true_iff in Ht as [He Hk].
  destruct (key_is_used key) eqn:Hu.
  { erewrite join_key_used by done. by intros [= <- <-]. }
  erewrite join_run by done.
  pose proof (scan_teams_outcome env email key_code key (DB.sorted_teams w) None w) as Hs.
  destruct (scan_teams _ _ _ _ _ _ _) as [[[r1|[s|]]|e] w1].
  - destruct Hs as (name & teamId & -> & ? & _ & _ & ?). intros [= <- <-]. eauto.
  - pose proof (invite_selected_outcome env email key_code key s w1) as Hi.
    destruct (invite_selected _ _ _ _ _ _) as [[r2|e2] w2]; [|by intros [= <- <-]].
    intros [= <- <-]. destruct r2; try done.
    destruct Hi as [Hc Hj]. destruct Hs as (?&?&?&?&?&?&Hic&?&?).
    split; [rewrite Hc, Hic; eauto|].
    eexists. eapply joined_record_frame_l; [|exact Hj]. by repeat split.
  - by intros [= <- <-].
  - by intros [= <- <-].
Qed.
End JoinFacts.

(** ** The team store stays well formed *)

Lemma teams_wf_empty : teams_wf empty_world.
Proof. apply map_Forall_empty. Qed.

Lemma teams_wf_createTeam env0 name accountId accessToken organizationId email lastInviteAt w :
  teams_wf w →
  teams_wf
    (DB.createTeam env0 name accountId accessToken organizationId email lastInviteAt w).2.
Proof. intros Hwf. by apply map_Forall_insert_2. Qed.

Lemma teams_wf_updateTeam env0 id updates w :
  TeamUpdates.id updates = None →
  teams_wf w → teams_wf (DB.updateTeam env0 id updates w).2.
Proof.
  intros Hid Hwf.
  unfold DB.updateTeam, DB.getTeam, DB.Date_now, bind, gets, modify, ret, throw.
  destruct (teams w !! id) as [st|] eqn:Hl; simpl; [|done].
  apply map_Forall_insert_2; [|done]. simpl. rewrite Hid. by apply (Hwf id st).
Qed.

Lemma teams_wf_deleteTeam id w : teams_wf w → teams_wf (DB.deleteTeam id w).2.
Proof. intros Hwf. by apply map_Forall_delete. Qed.

Lemma teams_wf_scan_teams env0 email key_code key ts sel w :
  teams_wf w → teams_wf (scan_teams env0 email key_code key ts sel w).2.
Proof.
  revert sel w. induction ts as [|t ts IH]; intros sel w Hwf; simpl; [done|].
  unfold bind. destruct (scan_team_teams env0 email key_code key t sel w) as (_ & _ & Hstep).
  destruct (scan_team _ _ _ _ _ _ _) as [[[r|sel']|e] w1]; simpl in *; auto.
Qed.

Section Preserves.
Context (P : World → Prop).

Lemma preserves_ret {A} (a : A) : preserves P (ret a).
Proof. by intros w. Qed.

Lemma preserves_throw {A} message : preserves P (@throw A message).
Proof. by intros w. Qed.

Lemma preserves_gets {A} (f : World → A) : preserves P (gets f).
Proof. by intros w. Qed.

Lemma preserves_modify f : (∀ w, P w → P (f w)) → preserves P (modify f).
Proof. intros H w. apply H. Qed.

Lemma preserves_bind {A B} (m : M A) (f : A → M B) :
  preserves P m → (∀ a, preserves P (f a)) → preserves P (bind m f).
Proof.
  intros Hm Hf w Hw. unfold bind. specialize (Hm w Hw).
  destruct (m w) as [[a|e] w']; simpl in *; [by apply Hf|done].
Qed.

Lemma preserves_try_catch {A} (m : M A) (h : string → M A) :
  preserves P m → (∀ e, preserves P (h e)) → preserves P (try_catch m h).
Proof.
  intros Hm Hh w Hw. unfold try_catch. specialize (Hm w Hw).
  destruct (m w) as [[a|e] w']; simpl in *; [done|by apply Hh].
Qed.
End Preserves.

Lemma teams_wf_updateTeam' env0 id updates :
  TeamUpdates.id updates = None → preserves teams_wf (DB.updateTeam env0 id updates).
Proof. intros Hid w. by apply teams_wf_updateTeam. Qed.

(** Walks through a computation; [known] closes the calls that have a
    lemma of their own. *)
Ltac preserve_with known :=
  repeat first
    [ known
    | apply preserves_ret | apply preserves_throw | apply preserves_gets
    | apply preserves_bind; [|intros ?]
    | apply preserves_try_catch; [|intros ?]
    | apply preserves_modify; by intros ? ?
    | match goal with
      | |- preserves _ (if ?b then _ else _) => destruct b
      | |- preserves _ (match ?x with _ => _ end) => destruct x
      end ].

Ltac preserve := preserve_with ltac:(apply teams_wf_updateTeam'; reflexivity).

Lemma teams_wf_invite_selected env0 email key_code key s :
  preserves teams_wf (invite_selected env0 email key_code key s).
Proof.
  unfold invite_selected, tempExpiry, DB.createInvitation, DB.incrementKeyUsage,
    DB.getAccessKey, DB.randomUUID, DB.Date_now.
  preserve; try by intros w.
  unfold inviteToTeam. intros w Hw. by destruct (invite env0 _ _ _).
Qed.

(** [join] leaves the team store well formed, whatever it answers. *)
Lemma teams_wf_join_handler env0 email key_code w :
  teams_wf w → teams_wf (join_handler env0 email key_code w).2.
Proof.
  intros Hwf. unfold join_handler.
  destruct (Js.truthy email && Js.truthy key_code) eqn:Ht.
  2: { by rewrite join_missing_fields. }
  apply andb_true_iff in Ht as [He Hk].
  destruct (keys w !! key_code) as [key|] eqn:Hl.
  2: { by rewrite join_invalid_key. }
  destruct (key_is_used key) eqn:Hu.
  { by erewrite join_key_used. }
  erewrite join_run by done.
  pose proof (teams_wf_scan_teams env0 email key_code key (DB.sorted_teams w) None w Hwf) as Hs.
  destruct (scan_teams _ _ _ _ _ _ _) as [[[r|[sel|]]|e] w1]; simpl in *; try done.
  pose proof (teams_wf_invite_selected env0 email key_code key sel w1 Hs) as Hi.
  by destruct (invite_selected _ _ _ _ _ _) as [[?|?] ?].
Qed.

(** ** The count of the scan is the count on the roster *)

Lemma nonOwnerMembers_length items :
  Z.of_nat (length (nonOwnerMembers (RosterArray items))) = non_owner_count items.
Proof.
  unfold nonOwnerMembers. induction items as [|m items IH]; [done|].
  rewrite filter_cons. cbn [non_owner_count]. unfold is_owner.
  destruct (decide (Member.role m ≠ Some "account-owner")) as [Hm|Hm].
  - rewrite bool_decide_eq_false_2 by done. cbn [length]. lia.
  - rewrite bool_decide_eq_true_2 by (by destruct (decide (Member.role m = Some "account-owner"))).
    lia.
Qed.

Lemma member_count_seats_taken env0 t : member_count env0 t = seats_taken env0 t.
Proof.
  unfold member_count, seats_taken, live_roster, fetched_roster.
  destruct (Team.tokenStatus t); [|done].
  destruct (members env0 _ _) as [e|[items|]]; [done| |done].
  apply nonOwnerMembers_length.
Qed.

Lemma has_room_below_capacity env0 t : has_room env0 t = below_capacity env0 t.
Proof.
  unfold has_room, below_capacity, live_roster, fetched_roster.
  destruct (Team.tokenStatus t); [|done].
  destruct (members env0 _ _) as [e|[items|]]; [done| |done].
  by rewrite nonOwnerMembers_length.
Qed.

Lemma Forall_has_room_below_capacity env0 ts :
  Forall (λ t, below_capacity env0 t = false) ts → Forall (λ t, has_room env0 t = false) ts.
Proof.
  intros H. eapply Forall_impl; [exact H|].
  intros t. by rewrite has_room_below_capacity.
Qed.

(** * The claims *)

Import Scenario.

(** ** Single-use keys *)

(** C3, as stated, at an empty email: the key exists and has been used,
    yet the handler answers "Missing fields" before it looks at the key.
    With an email that is not empty the same key is rejected as used. *)
Lemma join_used_key_empty_email :
  keys (world [teamC] used) !! "k1" = Some used ∧
  AccessKey.isUnlimited used = false ∧
  AccessKey.isTemp used = false ∧
  (0 < AccessKey.usageCount used)%N ∧
  (join_handler env "" "k1" (world [teamC] used)).1 = MissingFields ∧
  (join_handler env "" "k1" (world [teamC] used)).1 ≠ KeyAlreadyUsed ∧
  (join_handler env "u@x.com" "k1" (world [teamC] used)).1 = KeyAlreadyUsed.
Proof. by vm_compute. Qed.

Lemma key_is_used_spec key :
  key_is_used key = true ↔
  AccessKey.isUnlimited key = false ∧ AccessKey.isTemp key = false ∧
  (0 < AccessKey.usageCount key)%N.
Proof.
  unfold key_is_used. rewrite !andb_true_iff, !negb_true_iff, N.ltb_lt. tauto.
Qed.

(** C3 (amended): for a key that exists, and an email and a key code
    that are not empty, [join] answers [KeyAlreadyUsed] exactly when the
    key is neither unlimited nor temp and its usage count is positive; and
    after a [join] with such a single-use key has succeeded, every further
    [join] with that key answers [KeyAlreadyUsed] and changes nothing. *)
Theorem join_key_already_used env0 w email key_code key :
  Js.truthy email = true →
  Js.truthy key_code = true →
  keys w !! key_code = Some key →
  ((join_handler env0 email key_code w).1 = KeyAlreadyUsed ↔
     AccessKey.isUnlimited key = false ∧ AccessKey.isTemp key = false ∧
     (0 < AccessKey.usageCount key)%N) ∧
  (AccessKey.isUnlimited key = false →
   AccessKey.isTemp key = false →
   ∀ r w',
     join_handler env0 email key_code w = (r, w') →
     (r = InvitationSent ∨ ∃ name e, r = AlreadyMember name e) →
     ∀ env1 email1,
       Js.truthy email1 = true →
       join_handler env1 email1 key_code w' = (KeyAlreadyUsed, w')).
Proof.
  intros He Hk Hl. split.
  - rewrite <- key_is_used_spec. split.
    + intros Hr. destruct (join_handler env0 email key_code w) as [r w'] eqn:E.
      simpl in Hr. subst r.
      by destruct (join_success_recorded env0 email key_code key w _ _ Hl E).
    + intros Hu. unfold join_handler. by erewrite join_key_used.
  - intros Hun Htmp r w' E Hr env1 email1 He1.
    pose proof (join_success_recorded env0 email key_code key w r w' Hl E) as Hrec.
    assert (∃ teamId, joined_record env0 email key_code key teamId w w') as (teamId & Hj).
    { destruct Hr as [->|(name & e & ->)]; by destruct Hrec. }
    destruct Hj as (inv & n & _ & _ & _ & _ & _ & _ & _ & _ & _ & _ & Hkeys).
    unfold bump_key in Hkeys. rewrite Hl in Hkeys.
    unfold join_handler. erewrite join_key_used; try done.
    + rewrite Hkeys. apply lookup_insert_eq.
    + apply key_is_used_spec. simpl. repeat split; try done. lia.
Qed.

Lemma join_key_already_used_witness :
  ((join_handler env "u@x.com" "k1" (world [teamC] single_use)).1 = KeyAlreadyUsed ↔
     AccessKey.isUnlimited single_use = false ∧ AccessKey.isTemp single_use = false ∧
     (0 < AccessKey.usageCount single_use)%N) ∧
  join_handler env "v@x.com" "k1"
    (join_handler env "u@x.com" "k1" (world [teamC] single_use)).2 =
  (KeyAlreadyUsed, (join_handler env "u@x.com" "k1" (world [teamC] single_use)).2).
Proof.
  destruct (join_key_already_used env (world [teamC] single_use) "u@x.com" "k1" single_use
              eq_refl eq_refl eq_refl) as [H1 H2].
  split; [exact H1|].
  apply (H2 eq_refl eq_refl InvitationSent); [by vm_compute|by left|reflexivity].
Defined.

(** ** Normalization of the email *)

(** C4 at a failing input.  [u@x.com] sits in the roster of team B (as
    [U@x.com]).  With the email as it is, [join] finds the member and
    invites nobody; with a space in front, which [trim] would strip, the
    comparison with the roster fails and the user is invited again, into
    team C, under the address with the space. *)
Theorem join_untrimmed_email_invited_again :
  DB.normalize " u@x.com" = "u@x.com" ∧
  is_member env "u@x.com" teamB = true ∧
  (join_handler env "u@x.com" "k1" (world [teamA; teamB; teamC; teamD] single_use)).1
    = AlreadyMember "Team B" "u@x.com" ∧
  invite_calls
    (join_handler env "u@x.com" "k1" (world [teamA; teamB; teamC; teamD] single_use)).2
    = [] ∧
  (join_handler env " u@x.com" "k1" (world [teamA; teamB; teamC; teamD] single_use)).1
    = InvitationSent ∧
  invite_calls
    (join_handler env " u@x.com" "k1" (world [teamA; teamB; teamC; teamD] single_use)).2
    = [("tokC", "accC", " u@x.com")].
Proof. by vm_compute. Qed.

(** ** The already-a-member path *)

Lemma first_true {A} (P : A → bool) (l : list A) :
  (∃ x, x ∈ l ∧ P x = true) →
  ∃ pre x post, l = pre ++ x :: post ∧ Forall (λ y, P y = false) pre ∧ P x = true.
Proof.
  induction l as [|a l IH]; intros (x & Hx & HP).
  { by apply elem_of_nil in Hx. }
  destruct (P a) eqn:Ea.
  { by exists [], a, l. }
  apply elem_of_cons in Hx as [->|Hx]; [congruence|].
  destruct IH as (pre & y & post & -> & Hpre & Hy); [by eauto|].
  exists (a :: pre), y, post. split; [done|]. split; [|done]. by constructor.
Qed.

Lemma is_member_refreshed env0 needle t n now :
  is_member env0 needle t = true → is_member env0 needle (refreshed t n now) = true.
Proof.
  unfold is_member, live_roster, refreshed. simpl.
  by destruct (Team.tokenStatus t).
Qed.

(** A [join] in a pool where some team has the email in its roster
    invites nobody, whatever the key, and leaves such a pool. *)
Lemma join_member_step env0 email key_code w :
  teams_wf w →
  (∃ t, t ∈ DB.sorted_teams w ∧ is_member env0 (normalizedEmail email) t = true) →
  invite_calls (join_handler env0 email key_code w).2 = invite_calls w ∧
  teams_wf (join_handler env0 email key_code w).2 ∧
  (∃ t, t ∈ DB.sorted_teams (join_handler env0 email key_code w).2 ∧
        is_member env0 (normalizedEmail email) t = true).
Proof.
  intros Hwf Hex. unfold join_handler.
  destruct (Js.truthy email && Js.truthy key_code) eqn:Ht.
  2: { by rewrite join_missing_fields. }
  apply andb_true_iff in Ht as [He Hk].
  destruct (keys w !! key_code) as [key|] eqn:Hl.
  2: { by rewrite join_invalid_key. }
  destruct (key_is_used key) eqn:Hu.
  { by erewrite join_key_used. }
  erewrite join_run by done.
  destruct (first_true _ _ Hex) as (pre & m & post & E & Hpre & Hm).
  pose proof (sorted_teams_snapshot w Hwf) as Hsnap. rewrite E in *.
  destruct (scan_teams_member env0 email key_code key pre m post None w Hsnap Hpre Hm)
    as (w' & -> & Hic & _ & _ & _ & _ & Hwf' & (n & now & Hl')).
  simpl. split; [done|]. split; [auto|].
  exists (refreshed m n now). split; [|by apply is_member_refreshed].
  apply elem_of_sorted_teams. eauto.
Qed.

Lemma join_member_repeat env0 email key_code w n :
  teams_wf w →
  (∃ t, t ∈ DB.sorted_teams w ∧ is_member env0 (normalizedEmail email) t = true) →
  invite_calls (Nat.iter n (λ w, (join_handler env0 email key_code w).2) w) = invite_calls w.
Proof.
  intros Hwf Hex.
  cut (invite_calls (Nat.iter n (λ w, (join_handler env0 email key_code w).2) w)
         = invite_calls w ∧
       teams_wf (Nat.iter n (λ w, (join_handler env0 email key_code w).2) w) ∧
       (∃ t, t ∈ DB.sorted_teams (Nat.iter n (λ w, (join_handler env0 email key_code w).2) w) ∧
             is_member env0 (normalizedEmail email) t = true)).
  { by intros [? _]. }
  induction n as [|n (IH1 & IH2 & IH3)]; simpl; [done|].
  destruct (join_member_step env0 email key_code _ IH2 IH3) as (? & ? & ?).
  split; [congruence|done].
Qed.

(** C5, as stated, in a pool of two teams that both have the email in
    their rosters: the answer names team E, the first in the scan, and not
    team B, though the claim promises the name of every such team. *)
Lemma join_member_of_two_teams :
  keys (world [teamE; teamB] single_use) !! "k1" = Some single_use ∧
  key_is_used single_use = false ∧
  teams (world [teamE; teamB] single_use) !! "tB" = Some teamB ∧
  is_member env (DB.normalize "u@x.com") teamB = true ∧
  (join_handler env "u@x.com" "k1" (world [teamE; teamB] single_use)).1
    = AlreadyMember "Team E" "u@x.com" ∧
  (join_handler env "u@x.com" "k1" (world [teamE; teamB] single_use)).1
    ≠ AlreadyMember (Team.name teamB) "u@x.com".
Proof. by vm_compute. Qed.

(** C5 (amended): for an email without surrounding white space and a
    key that exists and is not a used single-use key, let [t] be the first
    team in the order of the scan whose roster, as the scan sees it, holds
    the normalized email.  Then [join] answers success naming [t] and sends
    no invite; it adds one Invitation for [t] to the ledger, with a temp
    expiry computed from a clock reading of this call when the key is temp,
    and increments the key's usage count.  And any number of repeated
    [join] calls leaves the list of remote invites as it was. *)
Theorem join_already_member env0 w email key_code key pre t post :
  Js.truthy email = true →
  Js.truthy key_code = true →
  Js.trim email = email →
  keys w !! key_code = Some key →
  key_is_used key = false →
  teams_wf w →
  DB.sorted_teams w = pre ++ t :: post →
  Forall (λ t', is_member env0 (DB.normalize email) t' = false) pre →
  is_member env0 (DB.normalize email) t = true →
  (∃ w',
     join_handler env0 email key_code w = (AlreadyMember (Team.name t) email, w') ∧
     invite_calls w' = invite_calls w ∧
     keys w' = <[key_code := DB.bump key]> (keys w) ∧
     AccessKey.usageCount (DB.bump key) = (AccessKey.usageCount key + 1)%N ∧
     joined_record env0 email key_code key (Team.id t) w w') ∧
  ∀ n, invite_calls (Nat.iter n (λ w, (join_handler env0 email key_code w).2) w)
       = invite_calls w.
Proof.
  intros He Hk Htrim Hl Hu Hwf E Hpre Hm.
  rewrite (normalize_trimmed _ Htrim) in Hpre, Hm.
  split.
  - pose proof (sorted_teams_snapshot w Hwf) as Hsnap. rewrite E in Hsnap.
    destruct (scan_teams_member env0 email key_code key pre t post None w Hsnap Hpre Hm)
      as (w' & Hrun & Hic & _ & _ & Hj & _).
    exists w'. unfold join_handler. erewrite join_run by done. rewrite E, Hrun.
    split; [done|]. split; [done|]. split; [|done].
    destruct Hj as (inv & n & _ & _ & _ & _ & _ & _ & _ & _ & _ & _ & Hkeys).
    unfold bump_key in Hkeys. by rewrite Hl in Hkeys.
  - intros n. apply join_member_repeat; [done|].
    exists t. split; [|done]. rewrite E. apply elem_of_app. right. left.
Qed.

Lemma join_already_member_witness :
  ∃ w',
    join_handler env "u@x.com" "k1" (world [teamA; teamB; teamC; teamD] temp24)
      = (AlreadyMember "Team B" "u@x.com", w') ∧
    invite_calls w' = [] ∧
    keys w' !! "k1" = Some (DB.bump temp24).
Proof.
  destruct (join_already_member env (world [teamA; teamB; teamC; teamD] temp24)
              "u@x.com" "k1" temp24 [teamA; teamC] teamB [teamD])
    as [(w' & Hr & Hi & Hk & _ & _) _].
  - reflexivity.
  - reflexivity.
  - reflexivity.
  - reflexivity.
  - reflexivity.
  - unfold teams_wf. apply (bool_decide_unpack _). vm_compute. exact I.
  - vm_compute. reflexivity.
  - repeat constructor.
  - reflexivity.
  - exists w'. split; [exact Hr|]. split; [exact Hi|].
    rewrite Hk. apply lookup_insert_eq.
Defined.

(** ** Candidate selection *)

(** A [join] that finds the email in no roster and a first team [c] with
    room: every team that is not marked expired is asked for its roster,
    and the invite goes to [c]. *)
Lemma join_invites_candidate env0 w email key_code key pre c post :
  Js.truthy email = true →
  Js.truthy key_code = true →
  keys w !! key_code = Some key →
  key_is_used key = false →
  teams_wf w →
  DB.sorted_teams w = pre ++ c :: post →
  Forall (λ t, is_member env0 (normalizedEmail email) t = false) (DB.sorted_teams w) →
  Forall (λ t, has_room env0 t = false) pre →
  has_room env0 c = true →
  ∃ r w',
    join_handler env0 email key_code w = (r, w') ∧
    invite_calls w' =
      invite_calls w ++ [(Team.accessToken c, Team.accountId c, email)] ∧
    fetch_calls w' = fetch_calls w ++ scan_fetches (DB.sorted_teams w) ∧
    match invite env0 (Team.accessToken c) (Team.accountId c) email with
    | None => r = InvitationSent ∧ joined_record env0 email key_code key (Team.id c) w w'
    | Some message =>
        r = InviteFailed message ∧
        keys w' = keys w ∧ invitations w' = invitations w ∧
        invitations_by_email w' = invitations_by_email w
    end.
Proof.
  intros He Hk Hl Hu Hwf E Hno Hpre Hc.
  pose proof (sorted_teams_snapshot w Hwf) as Hsnap.
  destruct (scan_teams_no_member env0 email key_code key _ None w Hsnap Hno)
    as (sel & w1 & Hrun & Hfr & Hf & Hdom & _ & _ & _ & _ & Hsel).
  destruct (Hsel eq_refl pre c post E Hpre Hc) as (now & ->).
  set (c' := refreshed c (member_count env0 c) now) in *.
  assert (is_Some (teams w1 !! Team.id c')) as Hin.
  { apply Hdom. simpl. destruct Hsnap as [_ Hs]. rewrite (Hs c); [eauto|].
    rewrite E. apply elem_of_app. right. left. }
  unfold join_handler. erewrite join_run by done. rewrite Hrun.
  pose proof Hfr as (Hfk & Hfi & Hfx & _ & _ & _ & Hic & _ & _).
  destruct (invite env0 (Team.accessToken c) (Team.accountId c) email) as [msg|] eqn:Hinv.
  - destruct (invite_selected_failed env0 email key_code key c' w1 msg Hinv Hin)
      as (w' & -> & Hic' & Hf' & ? & ? & ?).
    exists (InviteFailed msg), w'. split; [done|].
    split; [by rewrite Hic', Hic|]. split; [by rewrite Hf', Hf|].
    split; [done|]. split; [|split]; congruence.
  - destruct (invite_selected_sent env0 email key_code key c' w1 Hinv Hin)
      as (w' & -> & Hic' & _ & Hf' & Hj).
    exists InvitationSent, w'. split; [done|].
    split; [by rewrite Hic', Hic|]. split; [by rewrite Hf', Hf|].
    split; [done|]. by eapply joined_record_frame_l; [|exact Hj].
Qed.

Lemma Forall_sorted_teams (P : Team.t → Prop) w :
  map_Forall (λ _ t, P t) (teams w) → Forall P (DB.sorted_teams w).
Proof.
  intros H. apply Forall_forall. intros t (k & Hk)%elem_of_sorted_teams.
  by apply (H k t).
Qed.

(** C6: when the scan meets a first team [c] with fewer than 4 non-owner
    members on its roster, after teams [pre] that hold neither the email
    nor fewer than 4 non-owner members, then
    (1) if no later team holds the email, the invite goes to [c], whatever
    room the later teams have, and the roster of every team that is not
    marked expired was fetched, those after [c] too; (2) if a later team
    [m] holds the email, the scan went on up to [m], the answer is the
    already-a-member success naming [m], and [c] is not invited. *)
Theorem join_first_team_with_room env0 w email key_code key pre c post :
  Js.truthy email = true →
  Js.truthy key_code = true →
  keys w !! key_code = Some key →
  key_is_used key = false →
  teams_wf w →
  DB.sorted_teams w = pre ++ c :: post →
  Forall (λ t, is_member env0 (normalizedEmail email) t = false ∧
               below_capacity env0 t = false) pre →
  is_member env0 (normalizedEmail email) c = false →
  below_capacity env0 c = true →
  (Forall (λ t, is_member env0 (normalizedEmail email) t = false) post →
   ∃ r w',
     join_handler env0 email key_code w = (r, w') ∧
     invite_calls w' =
       invite_calls w ++ [(Team.accessToken c, Team.accountId c, email)] ∧
     fetch_calls w' = fetch_calls w ++ scan_fetches (pre ++ c :: post) ∧
     (invite env0 (Team.accessToken c) (Team.accountId c) email = None →
      r = InvitationSent ∧ joined_record env0 email key_code key (Team.id c) w w')) ∧
  (∀ p1 m p2,
     post = p1 ++ m :: p2 →
     Forall (λ t, is_member env0 (normalizedEmail email) t = false) p1 →
     is_member env0 (normalizedEmail email) m = true →
     ∃ w',
       join_handler env0 email key_code w = (AlreadyMember (Team.name m) email, w') ∧
       invite_calls w' = invite_calls w ∧
       fetch_calls w' = fetch_calls w ++ scan_fetches (pre ++ c :: p1 ++ [m])).
Proof.
  intros He Hk Hl Hu Hwf E Hpre Hcm Hc.
  rewrite <- has_room_below_capacity in Hc.
  assert (Forall (λ t, is_member env0 (normalizedEmail email) t = false) pre) as Hpre1.
  { eapply Forall_impl; [exact Hpre|]. by intros t [? _]. }
  assert (Forall (λ t, has_room env0 t = false) pre) as Hpre2.
  { eapply Forall_impl; [exact Hpre|]. intros t [_ ?]. by rewrite has_room_below_capacity. }
  split.
  - intros Hpost.
    destruct (join_invites_candidate env0 w email key_code key pre c post)
      as (r & w' & Hr & Hic & Hf & Hinv); try done.
    { rewrite E. apply Forall_app. split; [done|]. by constructor. }
    exists r, w'. rewrite <- E. split; [done|]. split; [done|]. split; [done|].
    intros Hnone. by rewrite Hnone in Hinv.
  - intros p1 m p2 -> Hp1 Hm.
    pose proof (sorted_teams_snapshot w Hwf) as Hsnap. rewrite E in Hsnap.
    replace (pre ++ c :: p1 ++ m :: p2) with ((pre ++ c :: p1) ++ m :: p2) in *
      by (by rewrite <- app_assoc).
    destruct (scan_teams_member env0 email key_code key (pre ++ c :: p1) m p2 None w)
      as (w' & Hrun & Hic & _ & Hf & _); try done.
    { apply Forall_app. split; [done|]. by constructor. }
    exists w'. unfold join_handler. erewrite join_run by done. rewrite E, Hrun.
    split; [done|]. split; [done|]. by rewrite Hf, <- app_assoc.
Qed.

Lemma join_first_team_with_room_witness :
  (∃ w',
     join_handler with_teamG "z@x.com" "k1" (world [teamA; teamG; teamC; teamD] single_use)
       = (InvitationSent, w') ∧
     invite_calls w' = [("tokG", "accG", "z@x.com")] ∧
     fetch_calls w' = [("tokA", "accA"); ("tokG", "accG"); ("tokC", "accC"); ("tokD", "accD")]) ∧
  (∃ w',
     join_handler with_teamG "u@x.com" "k1" (world [teamA; teamG; teamB; teamD] single_use)
       = (AlreadyMember "Team B" "u@x.com", w') ∧
     invite_calls w' = [] ∧
     fetch_calls w' = [("tokA", "accA"); ("tokG", "accG"); ("tokB", "accB")]).
Proof.
  split.
  - destruct (join_first_team_with_room with_teamG
                (world [teamA; teamG; teamC; teamD] single_use)
                "z@x.com" "k1" single_use [teamA] teamG [teamC; teamD])
      as [H _].
    + reflexivity.
    + reflexivity.
    + reflexivity.
    + reflexivity.
    + unfold teams_wf. apply (bool_decide_unpack _). vm_compute. exact I.
    + vm_compute. reflexivity.
    + repeat constructor.
    + reflexivity.
    + reflexivity.
    + destruct H as (r & w' & Hr & Hi & Hf & Hs); [repeat constructor|].
      destruct Hs as [-> _]; [reflexivity|].
      exists w'. split; [exact Hr|]. split; [exact Hi|exact Hf].
  - destruct (join_first_team_with_room with_teamG
                (world [teamA; teamG; teamB; teamD] single_use)
                "u@x.com" "k1" single_use [teamA] teamG [teamB; teamD])
      as [_ H].
    + reflexivity.
    + reflexivity.
    + reflexivity.
    + reflexivity.
    + unfold teams_wf. apply (bool_decide_unpack _). vm_compute. exact I.
    + vm_compute. reflexivity.
    + repeat constructor.
    + reflexivity.
    + reflexivity.
    + destruct (H [] teamB [teamD]) as (w' & Hr & Hi & Hf);
        [reflexivity|constructor|reflexivity|].
      exists w'. split; [exact Hr|]. split; [exact Hi|exact Hf].
Defined.

(** ** No team available *)

(** C7: when, over all the teams, the scan finds the email in no roster
    and counts fewer than 4 non-owner members in no team, [join] answers
    [NoAvailableTeams]; the ledger and its index are as before the call,
    the key store too (so the key's usage count is unchanged), and no
    invite was sent. *)
Theorem join_no_available_teams env0 w email key_code key :
  Js.truthy email = true →
  Js.truthy key_code = true →
  keys w !! key_code = Some key →
  key_is_used key = false →
  teams_wf w →
  map_Forall (λ _ t, is_member env0 (normalizedEmail email) t = false ∧
                     has_room env0 t = false) (teams w) →
  ∃ w',
    join_handler env0 email key_code w = (NoAvailableTeams, w') ∧
    invitations w' = invitations w ∧
    invitations_by_email w' = invitations_by_email w ∧
    keys w' = keys w ∧
    keys w' !! key_code = Some key ∧
    invite_calls w' = invite_calls w.
Proof.
  intros He Hk Hl Hu Hwf Hall.
  apply Forall_sorted_teams in Hall.
  pose proof (sorted_teams_snapshot w Hwf) as Hsnap.
  destruct (scan_teams_no_member env0 email key_code key _ None w Hsnap)
    as (sel & w' & Hrun & Hfr & _ & _ & _ & _ & _ & Hsel & _).
  { eapply Forall_impl; [exact Hall|]. by intros t [? _]. }
  rewrite Hsel in Hrun; [|done|].
  2: { eapply Forall_impl; [exact Hall|]. by intros t [_ ?]. }
  exists w'. unfold join_handler. erewrite join_run by done. rewrite Hrun.
  destruct Hfr as (Hfk & ? & ? & _ & _ & _ & ? & _).
  repeat split; try done. by rewrite Hfk.
Qed.

Lemma join_no_available_teams_witness :
  ∃ w',
    join_handler env "z@x.com" "k1" (world [teamA; teamD] single_use)
      = (NoAvailableTeams, w') ∧
    invitations w' = ∅ ∧
    keys w' !! "k1" = Some single_use.
Proof.
  destruct (join_no_available_teams env (world [teamA; teamD] single_use)
              "z@x.com" "k1" single_use)
    as (w' & Hr & Hi & _ & _ & Hk & _).
  - reflexivity.
  - reflexivity.
  - reflexivity.
  - reflexivity.
  - unfold teams_wf. apply (bool_decide_unpack _). vm_compute. exact I.
  - apply (bool_decide_unpack _). vm_compute. exact I.
  - exists w'. split; [exact Hr|]. split; [exact Hi|exact Hk].
Defined.

(** ** Temp expiry *)

(** C8, as stated, at a temp key whose [tempHours] is set to 0: the
    clock reads 1000 throughout, and the expiry written is 1000 + 24 h, not
    1000 + 0 h. *)
Lemma join_temp_key_zero_hours :
  AccessKey.isTemp temp0 = true ∧
  AccessKey.tempHours temp0 = Some 0 ∧
  (∀ n, clock env n = 1000) ∧
  (join_handler env "z@x.com" "k1" (world [teamC] temp0)).1 = InvitationSent ∧
  Invitation.tempExpireAt <$>
    invitations (join_handler env "z@x.com" "k1" (world [teamC] temp0)).2 !! "uuid-0"
    = Some (Some (1000 + 24 * 3600000)) ∧
  1000 + 24 * 3600000 ≠ 1000 + 0 * 3600000.
Proof. by vm_compute. Qed.

(** C8 (amended): a [join] that answers a success, on either path, adds
    one Invitation to the ledger.  With a temp key its [tempExpireAt] is
    [T + h * 3600000], where [T] is a reading of the clock made during the
    call and [h] is [key.tempHours], or 24 when [tempHours] is unset or 0;
    so it is [T] + 24 h for [tempHours = 24].  With a key that is not temp
    it has no [tempExpireAt]. *)
Theorem join_temp_expiry env0 w email key_code key r w' :
  keys w !! key_code = Some key →
  join_handler env0 email key_code w = (r, w') →
  (r = InvitationSent ∨ ∃ name e, r = AlreadyMember name e) →
  ∃ (inv : Invitation.t) (n : nat),
    invitations w' = <[Invitation.id inv := inv]> (invitations w) ∧
    (clock_reads w ≤ n < clock_reads w')%nat ∧
    Invitation.status inv = success ∧
    Invitation.isTemp inv = AccessKey.isTemp key ∧
    (AccessKey.isTemp key = false → Invitation.tempExpireAt inv = None) ∧
    (AccessKey.isTemp key = true →
       (∀ h, AccessKey.tempHours key = Some h → h ≠ 0 →
             Invitation.tempExpireAt inv = Some (clock env0 n + h * 3600000)) ∧
       (AccessKey.tempHours key = Some 24 →
             Invitation.tempExpireAt inv = Some (clock env0 n + 24 * 3600000)) ∧
       (AccessKey.tempHours key = None ∨ AccessKey.tempHours key = Some 0 →
             Invitation.tempExpireAt inv = Some (clock env0 n + 24 * 3600000))).
Proof.
  intros Hl E Hr.
  pose proof (join_success_recorded env0 email key_code key w r w' Hl E) as Hrec.
  assert (∃ teamId, joined_record env0 email key_code key teamId w w') as (teamId & Hj).
  { destruct Hr as [->|(name & e & ->)]; by destruct Hrec. }
  destruct Hj as (inv & n & Hi & _ & _ & _ & _ & Hs & Ht & _ & Hn & Hx & _).
  exists inv, n. unfold expiry_of in Hx.
  split; [done|]. split; [done|]. split; [done|]. split; [done|].
  split; [intros Hf; by rewrite Hf in Hx|].
  intros Htemp. rewrite Htemp in Hx. rewrite Hx. unfold Js.num_or.
  split; [|split].
  - intros h -> Hh. by rewrite (proj2 (Z.eqb_neq h 0) Hh).
  - by intros ->.
  - by intros [->| ->].
Qed.

Lemma join_temp_expiry_witness :
  ∃ inv,
    invitations (join_handler env "z@x.com" "k1" (world [teamC] temp24)).2
      = {[Invitation.id inv := inv]} ∧
    Invitation.tempExpireAt inv = Some (1000 + 24 * 3600000).
Proof.
  destruct (join_temp_expiry env (world [teamC] temp24) "z@x.com" "k1" temp24
              InvitationSent
              (join_handler env "z@x.com" "k1" (world [teamC] temp24)).2)
    as (inv & n & Hi & _ & _ & _ & _ & Ht).
  - reflexivity.
  - by vm_compute.
  - by left.
  - exists inv. split; [exact Hi|].
    destruct (Ht eq_refl) as (_ & H24 & _). exact (H24 eq_refl).
Defined.

(** ** The ledger *)

Lemma lookup_foldl_delete (l : list Invitation.t) (m : gmap string Invitation.t) k :
  foldl (λ m inv, delete (Invitation.id inv) m) m l !! k =
    if decide (k ∈ Invitation.id <$> l) then None else m !! k.
Proof.
  revert m. induction l as [|inv l IH]; intros m.
  { rewrite decide_False; [done|]. apply not_elem_of_nil. }
  rewrite fmap_cons. cbn [foldl]. rewrite IH. destruct (decide (k ∈ Invitation.id <$> l)) as [Hin|Hnin].
  - rewrite decide_True; [done|]. by right.
  - destruct (decide (k = Invitation.id inv)) as [->|Hne].
    + rewrite lookup_delete_eq. rewrite decide_True; [done|]. left.
    + rewrite lookup_delete_ne by done. rewrite decide_False; [done|].
      by intros [?|?]%elem_of_cons.
Qed.

Lemma createInvitation_spec env0 invite w :
  let id := uuid env0 (uuid_draws w) in
  let email := DB.normalize (NewInvitation.email invite) in
  let newInvite :=
    Invitation.mk id (NewInvitation.teamId invite) email
      (NewInvitation.keyCode invite) (NewInvitation.status invite)
      (NewInvitation.isTemp invite) (NewInvitation.tempExpireAt invite)
      (NewInvitation.isConfirmed invite) (clock env0 (clock_reads w)) in
  (DB.createInvitation env0 invite w).1 = Returns newInvite ∧
  invitations (DB.createInvitation env0 invite w).2 = <[id := newInvite]> (invitations w) ∧
  invitations_by_email (DB.createInvitation env0 invite w).2 =
    <[(email, NewInvitation.teamId invite) := id]> (invitations_by_email w).
Proof. done. Qed.











(** ** Newest first *)

(** C10: [DB.listTeams] returns the stored teams sorted by [createdAt],
    newest first; so when the scan of [join] finds the email in no roster
    and some team has fewer than 4 non-owner members on its roster, the
    team it invites on is such a team and no such team was created
    later. *)
Theorem listTeams_newest_first env0 w :
  (∃ ts,
     DB.listTeams w = (Returns ts, w) ∧
     StronglySorted (λ a b, Team.createdAt b ≤ Team.createdAt a) ts ∧
     ∀ t, t ∈ ts ↔ ∃ k, teams w !! k = Some t) ∧
  ∀ email key_code key,
    Js.truthy email = true →
    Js.truthy key_code = true →
    keys w !! key_code = Some key →
    key_is_used key = false →
    teams_wf w →
    map_Forall (λ _ t, is_member env0 (normalizedEmail email) t = false) (teams w) →
    (∃ k t, teams w !! k = Some t ∧ below_capacity env0 t = true) →
    ∃ c,
      (∃ k, teams w !! k = Some c) ∧
      below_capacity env0 c = true ∧
      invite_calls (join_handler env0 email key_code w).2 =
        invite_calls w ++ [(Team.accessToken c, Team.accountId c, email)] ∧
      ∀ k t, teams w !! k = Some t → below_capacity env0 t = true →
             Team.createdAt t ≤ Team.createdAt c.
Proof.
  split.
  { exists (DB.sorted_teams w). split; [done|].
    split; [apply sorted_teams_sorted|apply elem_of_sorted_teams]. }
  intros email key_code key He Hk Hl Hu Hwf Hno (k0 & t0 & Hk0 & Ht0).
  rewrite <- has_room_below_capacity in Ht0.
  apply Forall_sorted_teams in Hno.
  destruct (first_true (has_room env0) (DB.sorted_teams w))
    as (pre & c & post & E & Hpre & Hc).
  { exists t0. split; [|done]. apply elem_of_sorted_teams. eauto. }
  destruct (join_invites_candidate env0 w email key_code key pre c post)
    as (r & w' & Hr & Hic & _); try done.
  exists c. split.
  { apply elem_of_sorted_teams. rewrite E. apply elem_of_app. right. left. }
  split; [by rewrite <- has_room_below_capacity|]. split; [by rewrite Hr|].
  intros k t Hkt Ht. rewrite <- has_room_below_capacity in Ht.
  assert (t ∈ DB.sorted_teams w) as Hin by (apply elem_of_sorted_teams; eauto).
  pose proof (sorted_teams_sorted w) as Hsorted. rewrite E in Hin, Hsorted.
  apply elem_of_app in Hin as [Hin|Hin].
  - eapply Forall_forall in Hpre; [|exact Hin]. simpl in Hpre. congruence.
  - apply elem_of_cons in Hin as [->|Hin]; [lia|].
    apply StronglySorted_app_1_r in Hsorted.
    apply StronglySorted_inv in Hsorted as [_ Hall].
    eapply Forall_forall in Hall; [exact Hall|exact Hin].
Qed.

Lemma listTeams_newest_first_witness :
  ∃ c,
    below_capacity with_teamG c = true ∧
    invite_calls
      (join_handler with_teamG "z@x.com" "k1"
         (world [teamA; teamG; teamC; teamD] single_use)).2
      = [(Team.accessToken c, Team.accountId c, "z@x.com")] ∧
    Team.accessToken c = "tokG" ∧
    Team.createdAt teamC ≤ Team.createdAt c.
Proof.
  destruct (listTeams_newest_first with_teamG (world [teamA; teamG; teamC; teamD] single_use))
    as [_ H].
  destruct (H "z@x.com" "k1" single_use) as (c & _ & Hc & Hi & Hmax).
  - reflexivity.
  - reflexivity.
  - reflexivity.
  - reflexivity.
  - unfold teams_wf. apply (bool_decide_unpack _). vm_compute. exact I.
  - apply (bool_decide_unpack _). vm_compute. exact I.
  - exists "tC", teamC. split; reflexivity.
  - exists c. split; [exact Hc|]. split; [exact Hi|].
    split; [|apply (Hmax "tC"); reflexivity].
    assert (invite_calls
              (join_handler with_teamG "z@x.com" "k1"
                 (world [teamA; teamG; teamC; teamD] single_use)).2
            = [("tokG", "accG", "z@x.com")]) as Hcalls by (vm_compute; reflexivity).
    rewrite Hcalls in Hi. by injection Hi as <- _.
Defined.

(** ** The auto-kick job *)

Section AutoKick.
Variable env0 : Env.

Lemma kick_expired_no_removal inv w : no_removal w (kick_expired env0 inv w).2.
Proof.
  unfold kick_expired, try_catch, bind, DB.getTeam, gets, fetchTeamMembers, ret, throw.
  destruct (teams w !! Invitation.teamId inv) as [team|]; simpl; [|done].
  destruct (members env0 _ _) as [msg|[items|]]; simpl; try done.
  by destruct (find _ items).
Qed.

Lemma invite_expired_no_removal inv w : no_removal w (invite_expired env0 inv w).2.
Proof.
  unfold invite_expired, bind, DB.Date_now, ret.
  destruct (_ && _); [|done].
  destruct (Invitation.tempExpireAt inv) as [t|]; [|done].
  by destruct (t =? 0).
Qed.

Lemma invite_expired_returns inv w : ∃ b, (invite_expired env0 inv w).1 = Returns b.
Proof.
  unfold invite_expired, bind, DB.Date_now, ret.
  destruct (_ && _); [|by eexists].
  destruct (Invitation.tempExpireAt inv) as [t|]; [|by eexists].
  destruct (t =? 0); by eexists.
Qed.

Lemma expiry_pass_no_removal invites w : no_removal w (expiry_pass env0 invites w).2.
Proof.
  revert w. induction invites as [|inv invites IH]; intros w; simpl; [done|].
  unfold bind at 1.
  destruct (invite_expired_returns inv w) as [b Hb].
  pose proof (invite_expired_no_removal inv w) as [H1 H2].
  destruct (invite_expired env0 inv w) as [o w1]. simpl in *. subst o.
  unfold bind at 1.
  assert (no_removal w1 ((if b then kick_expired env0 inv else ret tt) w1).2) as [H3 H4].
  { destruct b; [apply kick_expired_no_removal|done]. }
  destruct ((if b then kick_expired env0 inv else ret tt) w1) as [[[]|e] w2]; simpl in *.
  - destruct (IH w2) as [H5 H6]. split; congruence.
  - split; congruence.
Qed.

Lemma auto_kick_no_removal w : no_removal w (auto_kick_tick env0 w).
Proof.
  unfold auto_kick_tick, auto_kick, bind, DB.getAutoKickConfig, DB.listInvitations,
    DB.Date_now, gets, ret. simpl.
  destruct (negb _); [done|]. simpl.
  destruct (_ || _); [done|].
  apply (expiry_pass_no_removal _ (set_clock_reads (S (clock_reads w)) w)).
Qed.
End AutoKick.

(** C1 at a failing input.  The service is enabled and the hour is inside
    its window; the ledger holds a temp, unconfirmed, successful invitation
    of [u@x.com] into team E that expired at 500, the clock reads 1000, and
    [u@x.com] is in the live roster of team E.  The tick fetches that
    roster, and that is all: [kickMember] is not called and no KickLog is
    written.  No tick, in any world, does either. *)
Theorem auto_kick_expired_member_stays :
  (AutoKickConfig.enabled (AutoKickConfig.mk true 300 0 23) = true ∧
   0 ≤ local_hour env (clock env 0) ≤ 23) ∧
  (invitations (ticking {["inv-1" := expired_invitation]}) !! "inv-1"
     = Some expired_invitation ∧
   Invitation.isTemp expired_invitation = true ∧
   Invitation.isConfirmed expired_invitation = false ∧
   Invitation.status expired_invitation = success ∧
   Invitation.tempExpireAt expired_invitation = Some 500 ∧
   500 ≤ clock env 1) ∧
  (teams (ticking {["inv-1" := expired_invitation]}) !! "tE" = Some teamE ∧
   members env "tokE" "accE"
     = inr (RosterArray [owner; user "u@x.com"; user "y@x.com"]) ∧
   Member.email (user "u@x.com") = Some (Invitation.email expired_invitation)) ∧
  (fetch_calls (auto_kick_tick env (ticking {["inv-1" := expired_invitation]}))
     = [("tokE", "accE")] ∧
   kick_calls (auto_kick_tick env (ticking {["inv-1" := expired_invitation]})) = [] ∧
   kick_logs (auto_kick_tick env (ticking {["inv-1" := expired_invitation]})) = ∅) ∧
  (∀ env0 w,
     kick_calls (auto_kick_tick env0 w) = kick_calls w ∧
     kick_logs (auto_kick_tick env0 w) = kick_logs w).
Proof.
  split; [by vm_compute|]. split; [by vm_compute|]. split; [by vm_compute|].
  split; [by vm_compute|]. intros env0 w. apply auto_kick_no_removal.
Qed.

(** C2 at a failing input.  The service is enabled, the hour is inside
    its window, the ledger is empty, and the live roster of team E has the
    non-owner members [u@x.com] and [y@x.com], who hold no invitation.  The
    tick does not fetch the roster, removes nobody and writes no KickLog:
    after the expiry pass the job has no statement left. *)
Theorem auto_kick_unauthorized_member_stays :
  (AutoKickConfig.enabled (AutoKickConfig.mk true 300 0 23) = true ∧
   0 ≤ local_hour env (clock env 0) ≤ 23) ∧
  (teams (ticking ∅) !! "tE" = Some teamE ∧
   live_roster env teamE = Some [user "u@x.com"; user "y@x.com"] ∧
   invitations (ticking ∅) = ∅) ∧
  (fetch_calls (auto_kick_tick env (ticking ∅)) = [] ∧
   kick_calls (auto_kick_tick env (ticking ∅)) = [] ∧
   kick_logs (auto_kick_tick env (ticking ∅)) = ∅).
Proof. by vm_compute. Qed.

(** * More of the code *)

(** ** The team store *)



(** A team written by [DB.createTeam] is read back by [DB.getTeam] under
    the id it was given; it carries the six fields of the argument, is
    active, and has no member and no token error counted.
    [DB.deleteTeam] makes [DB.getTeam] answer nothing for the id and leaves
    every other team; deleting an id that is not stored changes nothing. *)
Theorem team_create_get_delete env0 w :
  (∀ name accountId accessToken organizationId email lastInviteAt,
     ∃ t,
       (DB.createTeam env0 name accountId accessToken organizationId email lastInviteAt w).1
         = Returns t ∧
       (DB.getTeam (Team.id t)
          (DB.createTeam env0 name accountId accessToken organizationId email lastInviteAt w).2).1
         = Returns (Some t) ∧
       Team.tokenStatus t = active ∧ Team.memberCount t = 0 ∧
       Team.tokenErrorCount t = 0 ∧
       Team.name t = name ∧ Team.accountId t = accountId ∧
       Team.accessToken t = accessToken ∧
       Team.organizationId t = organizationId ∧ Team.email t = email ∧
       Team.lastInviteAt t = lastInviteAt ∧
       ∀ k, k ≠ Team.id t →
            teams (DB.createTeam env0 name accountId accessToken organizationId email
                     lastInviteAt w).2 !! k
              = teams w !! k) ∧
  (∀ id,
     (DB.getTeam id (DB.deleteTeam id w).2).1 = Returns None ∧
     (∀ k, k ≠ id → teams (DB.deleteTeam id w).2 !! k = teams w !! k) ∧
     (teams w !! id = None → (DB.deleteTeam id w).2 = w)).
Proof.
  split.
  - intros. eexists. split; [reflexivity|]. simpl.
    unfold DB.getTeam, gets. simpl. rewrite lookup_insert_eq.
    repeat split; try done. intros k Hk. by rewrite lookup_insert_ne.
  - intros id. unfold DB.getTeam, DB.deleteTeam, gets, modify. simpl.
    rewrite lookup_delete_eq. split; [done|].
    split; [intros k Hk; by rewrite lookup_delete_ne|].
    intros Hn. destruct w. unfold set_teams. simpl in *. by rewrite delete_id.
Qed.

(** ** The key store *)

Lemma incrementKeyUsage_keys code w :
  keys (DB.incrementKeyUsage code w).2 = bump_key code (keys w).
Proof.
  unfold DB.incrementKeyUsage, DB.getAccessKey, bind, gets, modify, ret, bump_key.
  by destruct (keys w !! code).
Qed.

Lemma incrementKeyUsage_absent code w :
  keys w !! code = None → (DB.incrementKeyUsage code w).2 = w.
Proof.
  intros Hl. unfold DB.incrementKeyUsage, DB.getAccessKey, bind, gets, modify, ret.
  by rewrite Hl.
Qed.

(** [n] calls of [DB.incrementKeyUsage] on a stored key add exactly [n]
    to its usage count and keep each of its six other fields; on a code
    that is not stored they change nothing at all; other keys are never
    touched. *)
Theorem incrementKeyUsage_counts code n w :
  match keys w !! code with
  | Some key =>
      ∃ key',
        keys (Nat.iter n (λ w, (DB.incrementKeyUsage code w).2) w) !! code = Some key' ∧
        AccessKey.usageCount key' = (AccessKey.usageCount key + N.of_nat n)%N ∧
        AccessKey.code key' = AccessKey.code key ∧
        AccessKey.teamId key' = AccessKey.teamId key ∧
        AccessKey.isTemp key' = AccessKey.isTemp key ∧
        AccessKey.isUnlimited key' = AccessKey.isUnlimited key ∧
        AccessKey.tempHours key' = AccessKey.tempHours key ∧
        AccessKey.createdAt key' = AccessKey.createdAt key
  | None => Nat.iter n (λ w, (DB.incrementKeyUsage code w).2) w = w
  end ∧
  ∀ c, c ≠ code →
       keys (Nat.iter n (λ w, (DB.incrementKeyUsage code w).2) w) !! c = keys w !! c.
Proof.
  induction n as [|n [IH1 IH2]]; simpl.
  { split; [|done]. destruct (keys w !! code) as [key|]; [|done].
    exists key. rewrite N.add_0_r. by repeat split. }
  set (w1 := Nat.iter n (λ w, (DB.incrementKeyUsage code w).2) w) in *.
  destruct (keys w !! code) as [key|] eqn:Hl.
  - destruct IH1 as (key1 & Hk1 & Hu & ? & ? & ? & ? & ? & ?).
    rewrite (incrementKeyUsage_keys code w1). unfold bump_key. rewrite Hk1.
    split.
    + exists (DB.bump key1). rewrite lookup_insert_eq. simpl.
      repeat split; try done. rewrite Hu. lia.
    + intros c Hc. rewrite lookup_insert_ne by done. by apply IH2.
  - rewrite IH1 in *. rewrite (incrementKeyUsage_absent code w Hl). by split.
Qed.

(** [DB.createAccessKey] stores the key with a usage count of 0, and
    [isUnlimited] false unless given, replacing whatever was stored under
    the code: the new key is never rejected as used.  After
    [DB.deleteAccessKey] a [join] with the code answers "Invalid Key" and
    changes nothing. *)
Theorem key_create_delete env0 code w :
  (∀ teamId isTemp isUnlimited tempHours,
     ∃ key,
       (DB.createAccessKey env0 code teamId isTemp isUnlimited tempHours w).1 = Returns key ∧
       keys (DB.createAccessKey env0 code teamId isTemp isUnlimited tempHours w).2 !! code
         = Some key ∧
       AccessKey.usageCount key = 0%N ∧
       AccessKey.isUnlimited key = default false isUnlimited ∧
       AccessKey.isTemp key = isTemp ∧
       key_is_used key = false ∧
       ∀ c, c ≠ code →
            keys (DB.createAccessKey env0 code teamId isTemp isUnlimited tempHours w).2 !! c
              = keys w !! c) ∧
  (∀ email,
     Js.truthy email = true → Js.truthy code = true →
     join_handler env0 email code (DB.deleteAccessKey code w).2
       = (InvalidKey, (DB.deleteAccessKey code w).2)).
Proof.
  split.
  - intros. eexists. split; [reflexivity|]. simpl. rewrite lookup_insert_eq.
    split; [done|]. split; [done|]. split; [done|]. split; [done|].
    split; [unfold key_is_used; simpl; by rewrite !andb_false_r|].
    intros c Hc. by rewrite lookup_insert_ne.
  - intros email He Hc. unfold join_handler. rewrite join_invalid_key; try done.
    simpl. apply lookup_delete_eq.
Qed.

Lemma key_create_delete_witness :
  join_handler env "u@x.com" "k1" (DB.deleteAccessKey "k1" (world [teamC] single_use)).2
    = (InvalidKey, (DB.deleteAccessKey "k1" (world [teamC] single_use)).2).
Proof.
  destruct (key_create_delete env "k1" (world [teamC] single_use)) as [_ H].
  apply H; reflexivity.
Defined.

(** ** Listings *)

(** [DB.listInvitations] and [DB.listAccessKeys] return exactly the
    stored records, newest first, and write nothing. *)
Theorem listings_newest_first w :
  (∃ invites,
     DB.listInvitations w = (Returns invites, w) ∧
     StronglySorted (λ a b, Invitation.createdAt b ≤ Invitation.createdAt a) invites ∧
     invites ≡ₚ (map_to_list (invitations w)).*2 ∧
     ∀ inv, inv ∈ invites ↔ ∃ id, invitations w !! id = Some inv) ∧
  (∃ ks,
     DB.listAccessKeys w = (Returns ks, w) ∧
     StronglySorted (λ a b, AccessKey.createdAt b ≤ AccessKey.createdAt a) ks ∧
     ks ≡ₚ (map_to_list (keys w)).*2 ∧
     ∀ key, key ∈ ks ↔ ∃ code, keys w !! code = Some key).
Proof.
  split; eexists; (split; [reflexivity|]).
  - split; [apply sort_sorted; intros; lia|].
    split; [by rewrite sort_perm, kv_list_perm|].
    intros inv. by rewrite sort_perm, elem_of_kv_list.
  - split; [apply sort_sorted; intros; lia|].
    split; [by rewrite sort_perm, kv_list_perm|].
    intros key. by rewrite sort_perm, elem_of_kv_list.
Qed.

(** ** Lookups in the ledger *)

Lemma matches_team_email_spec teamId normalized inv :
  DB.matches_team_email teamId normalized inv = true ↔ for_team_email teamId normalized inv.
Proof.
  unfold DB.matches_team_email, for_team_email.
  by rewrite andb_true_iff, !String.eqb_eq.
Qed.

(** [DB.getLatestInvitationByEmail] writes nothing.  It answers nothing
    exactly when no stored record is one of the team for the normalized
    email; otherwise it answers a stored record of the team for that email
    that no other such record is newer than. *)
Theorem getLatestInvitationByEmail_newest teamId email w :
  (DB.getLatestInvitationByEmail teamId email w).2 = w ∧
  match (DB.getLatestInvitationByEmail teamId email w).1 with
  | Returns None =>
      ∀ id inv, invitations w !! id = Some inv →
                ¬ for_team_email teamId (DB.normalize email) inv
  | Returns (Some inv) =>
      (∃ id, invitations w !! id = Some inv) ∧
      for_team_email teamId (DB.normalize email) inv ∧
      ∀ id inv', invitations w !! id = Some inv' →
                 for_team_email teamId (DB.normalize email) inv' →
                 Invitation.createdAt inv' ≤ Invitation.createdAt inv
  | Throws _ => False
  end.
Proof.
  split; [done|].
  unfold DB.getLatestInvitationByEmail, DB.listInvitations, bind, gets, ret. simpl.
  set (cmp := λ a b : Invitation.t, Invitation.createdAt b - Invitation.createdAt a).
  set (P := λ inv, DB.matches_team_email teamId (DB.normalize email) inv = true).
  set (l := Js.sort cmp (filter P (Js.sort cmp (DB.kv_list (invitations w))))).
  assert (∀ inv, inv ∈ l ↔
                 (∃ id, invitations w !! id = Some inv) ∧
                 for_team_email teamId (DB.normalize email) inv) as Hl.
  { intros inv. unfold l. rewrite sort_perm, list_elem_of_filter, sort_perm, elem_of_kv_list.
    unfold P. rewrite matches_team_email_spec. tauto. }
  assert (StronglySorted (λ a b, Invitation.createdAt b ≤ Invitation.createdAt a) l) as Hs.
  { apply sort_sorted; unfold cmp; intros; lia. }
  destruct l as [|inv l']; simpl.
  - intros id inv Hid Hm. apply (not_elem_of_nil inv). apply Hl. eauto.
  - destruct (proj1 (Hl inv)) as [Hst Hm]; [left|].
    split; [done|]. split; [done|].
    intros id inv' Hid Hm'.
    assert (inv' ∈ inv :: l') as Hin by (apply Hl; eauto).
    apply elem_of_cons in Hin as [->|Hin]; [lia|].
    apply StronglySorted_inv in Hs as [_ Hall].
    by eapply Forall_forall in Hall.
Qed.

Lemma filter_length_perm {A} (P : A → Prop) `{∀ x, Decision (P x)} (l1 l2 : list A) :
  l1 ≡ₚ l2 → length (filter P l1) = length (filter P l2).
Proof. intros Hp. by rewrite Hp. Qed.

(** [DB.deleteInvitationsByEmail], on a ledger whose records are stored
    under their own ids: it answers the number of stored records of the
    team for the normalized email, removes exactly those records, removes
    the index entry of the pair and no other, and writes nothing else. *)
Theorem deleteInvitationsByEmail_removes_matches teamId email w :
  ledger_ids_ok w →
  (DB.deleteInvitationsByEmail teamId email w).1 =
    Returns (Z.of_nat (length (filter (for_team_email teamId (DB.normalize email))
                                 (map_to_list (invitations w)).*2))) ∧
  (∀ id inv,
     invitations (DB.deleteInvitationsByEmail teamId email w).2 !! id = Some inv ↔
     invitations w !! id = Some inv ∧ ¬ for_team_email teamId (DB.normalize email) inv) ∧
  invitations_by_email (DB.deleteInvitationsByEmail teamId email w).2 =
    delete (DB.normalize email, teamId) (invitations_by_email w) ∧
  teams (DB.deleteInvitationsByEmail teamId email w).2 = teams w ∧
  keys (DB.deleteInvitationsByEmail teamId email w).2 = keys w.
Proof.
  intros Hids. simpl.
  set (cmp := λ a b : Invitation.t, Invitation.createdAt b - Invitation.createdAt a).
  set (P := λ inv, DB.matches_team_email teamId (DB.normalize email) inv = true).
  set (l := Js.sort cmp (DB.kv_list (invitations w))).
  assert (∀ inv, inv ∈ filter P l ↔
                 (∃ id, invitations w !! id = Some inv) ∧
                 for_team_email teamId (DB.normalize email) inv) as Hl.
  { intros inv. unfold l. rewrite list_elem_of_filter, sort_perm, elem_of_kv_list.
    unfold P. rewrite matches_team_email_spec. tauto. }
  split.
  { do 2 f_equal. unfold l.
    rewrite (filter_length_perm P _ (map_to_list (invitations w)).*2)
      by (by rewrite sort_perm, kv_list_perm).
    f_equal. apply list_filter_iff. intros inv. unfold P.
    apply matches_team_email_spec. }
  split; [|done].
  intros id inv. rewrite lookup_foldl_delete. case_decide as Hin.
  - split; [done|]. intros [Hst Hn]. exfalso. apply Hn.
    apply list_elem_of_fmap in Hin as (inv' & -> & Hin').
    apply Hl in Hin' as [(id' & Hst') Hm].
    rewrite (Hids _ _ Hst') in Hst. rewrite Hst' in Hst. by injection Hst as <-.
  - split.
    + intros Hst. split; [done|]. intros Hm. apply Hin.
      apply list_elem_of_fmap. exists inv. split; [by rewrite (Hids _ _ Hst)|].
      apply Hl. eauto.
    + by intros [? _].
Qed.

Lemma deleteInvitationsByEmail_removes_matches_witness :
  (DB.deleteInvitationsByEmail "tE" " U@x.com " (ticking {["inv-1" := expired_invitation]})).1
    = Returns 1 ∧
  invitations
    (DB.deleteInvitationsByEmail "tE" " U@x.com "
       (ticking {["inv-1" := expired_invitation]})).2 !! "inv-1" = None.
Proof.
  destruct (deleteInvitationsByEmail_removes_matches "tE" " U@x.com "
              (ticking {["inv-1" := expired_invitation]})) as (Hc & Hl & _).
  - unfold ledger_ids_ok. apply (bool_decide_unpack _). vm_compute. exact I.
  - split; [exact Hc|].
    destruct (invitations
                (DB.deleteInvitationsByEmail "tE" " U@x.com "
                   (ticking {["inv-1" := expired_invitation]})).2 !! "inv-1")
      as [inv|] eqn:E; [|reflexivity].
    apply Hl in E as [E Hn]. exfalso. apply Hn.
    injection E as <-. split; reflexivity.
Defined.

(** ** Spellings of an email *)

Lemma normalize_toLowerCase email : DB.normalize (Js.toLowerCase email) = DB.normalize email.
Proof.
  unfold DB.normalize. by rewrite JsFacts.trim_toLowerCase, JsFacts.toLowerCase_idem.
Qed.

Lemma normalize_trim email : DB.normalize (Js.trim email) = DB.normalize email.
Proof. unfold DB.normalize. by rewrite JsFacts.trim_idem. Qed.

(** The ledger helpers read an email only through its trimmed,
    lower-cased form: two spellings with the same normal form give the same
    answers and the same writes in [DB.createInvitation],
    [DB.getLatestInvitationByEmail], [DB.getInvitationsByEmail] and
    [DB.deleteInvitationsByEmail].  The normal form of an email, its
    lower-cased form and its trimmed form are such spellings of it, so an
    email read from a stored record finds that record's pair again. *)
Theorem ledger_helpers_ignore_spelling env0 teamId email email' w :
  DB.normalize email' = DB.normalize email →
  (∀ keyCode status isTemp tempExpireAt isConfirmed,
     DB.createInvitation env0
       (NewInvitation.mk teamId email' keyCode status isTemp tempExpireAt isConfirmed) w
     = DB.createInvitation env0
         (NewInvitation.mk teamId email keyCode status isTemp tempExpireAt isConfirmed) w) ∧
  DB.getLatestInvitationByEmail teamId email' w = DB.getLatestInvitationByEmail teamId email w ∧
  DB.getInvitationsByEmail email' w = DB.getInvitationsByEmail email w ∧
  DB.deleteInvitationsByEmail teamId email' w = DB.deleteInvitationsByEmail teamId email w ∧
  DB.normalize (DB.normalize email) = DB.normalize email ∧
  DB.normalize (Js.toLowerCase email) = DB.normalize email ∧
  DB.normalize (Js.trim email) = DB.normalize email.
Proof.
  intros E. split; [|split; [|split; [|split]]].
  - intros. unfold DB.createInvitation. simpl. by rewrite E.
  - unfold DB.getLatestInvitationByEmail. by rewrite E.
  - unfold DB.getInvitationsByEmail. by rewrite E.
  - unfold DB.deleteInvitationsByEmail. by rewrite E.
  - split; [apply normalize_idem|]. split; [apply normalize_toLowerCase|apply normalize_trim].
Qed.

Lemma ledger_helpers_ignore_spelling_witness :
  DB.deleteInvitationsByEmail "tE" "  U@X.com " (ticking {["inv-1" := expired_invitation]})
  = DB.deleteInvitationsByEmail "tE" "u@x.com" (ticking {["inv-1" := expired_invitation]}).
Proof.
  destruct (ledger_helpers_ignore_spelling env "tE" "u@x.com" "  U@X.com "
              (ticking {["inv-1" := expired_invitation]})) as (_ & _ & _ & H & _).
  - reflexivity.
  - exact H.
Defined.

Lemma elem_of_index_ids (normalized : string) (m : gmap (string * string) string)
    (id : string) :
  id ∈ DB.index_ids normalized m ↔ ∃ teamId, m !! (normalized, teamId) = Some id.
Proof.
  unfold DB.index_ids. rewrite list_elem_of_fmap. split.
  - intros ([t id'] & -> & Hin). rewrite sort_perm in Hin.
    apply list_elem_of_omap in Hin as ([[em t'] id''] & Hin & Hf). simpl in Hf.
    destruct (String.eqb_spec em normalized) as [->|]; [|done].
    injection Hf as <- <-. exists t'. by apply elem_of_map_to_list.
  - intros (t & Hl). exists (t, id). split; [done|]. rewrite sort_perm.
    apply list_elem_of_omap. exists ((normalized, t), id).
    split; [by apply elem_of_map_to_list|]. simpl. by rewrite String.eqb_refl.
Qed.

(** [DB.getInvitationsByEmail] writes nothing and answers stored records
    only, those whose id an index entry of the normalized email points to.
    The record [DB.createInvitation] has just written is among them, for
    every spelling of its email. *)
Theorem getInvitationsByEmail_finds_created env0 invite email w :
  DB.normalize email = DB.normalize (NewInvitation.email invite) →
  (∃ inv found,
     (DB.createInvitation env0 invite w).1 = Returns inv ∧
     DB.getInvitationsByEmail email (DB.createInvitation env0 invite w).2
       = (Returns found, (DB.createInvitation env0 invite w).2) ∧
     inv ∈ found) ∧
  (∃ found,
     DB.getInvitationsByEmail email w = (Returns found, w) ∧
     ∀ inv, inv ∈ found ↔
            ∃ id teamId,
              invitations_by_email w !! (DB.normalize email, teamId) = Some id ∧
              invitations w !! id = Some inv).
Proof.
  intros E.
  assert (∀ w0, ∃ found,
            DB.getInvitationsByEmail email w0 = (Returns found, w0) ∧
            ∀ inv, inv ∈ found ↔
                   ∃ id teamId,
                     invitations_by_email w0 !! (DB.normalize email, teamId) = Some id ∧
                     invitations w0 !! id = Some inv) as Hget.
  { intros w0. eexists. split; [reflexivity|]. intros inv.
    rewrite list_elem_of_omap. split.
    - intros (id & (t & Ht)%elem_of_index_ids & Hl). eauto.
    - intros (id & t & Ht & Hl). exists id. split; [|done].
      apply elem_of_index_ids. eauto. }
  split; [|apply Hget].
  destruct (createInvitation_spec env0 invite w) as (Hr & Hi & Hx).
  destruct (Hget (DB.createInvitation env0 invite w).2) as (found & Hf & Hin).
  eexists _, found. split; [exact Hr|]. split; [exact Hf|].
  apply Hin. eexists _, _. rewrite Hi, Hx, E. split; apply lookup_insert_eq.
Qed.

Lemma getInvitationsByEmail_finds_created_witness :
  ∃ inv found,
    DB.getInvitationsByEmail "BOB@x.com "
      (DB.createInvitation env
         (NewInvitation.mk "tC" " Bob@X.com" (Some "k1") success false None false)
         empty_world).2
      = (Returns found,
         (DB.createInvitation env
            (NewInvitation.mk "tC" " Bob@X.com" (Some "k1") success false None false)
            empty_world).2) ∧
    inv ∈ found ∧ Invitation.email inv = "bob@x.com".
Proof.
  destruct (getInvitationsByEmail_finds_created env
              (NewInvitation.mk "tC" " Bob@X.com" (Some "k1") success false None false)
              "BOB@x.com " empty_world) as [(inv & found & Hr & Hf & Hin) _].
  - reflexivity.
  - exists inv, found. split; [exact Hf|]. split; [exact Hin|].
    injection Hr as <-. reflexivity.
Defined.

(** [DB.updateInvitation], for every update: on an id that is not stored
    it throws "Invitation not found" and writes nothing; on a stored record
    it writes the merged record back under the same id and nothing else: the
    index of emails is left as it is, also by an update that sets another
    email or team.  So an update that does not set the id, the team or the
    email keeps the ledger well formed, and one that moves the record to a
    pair of email and team without an index entry does not. *)
Theorem updateInvitation_keeps_ledger id updates w :
  invitations_by_email (DB.updateInvitation id updates w).2 = invitations_by_email w ∧
  teams (DB.updateInvitation id updates w).2 = teams w ∧
  keys (DB.updateInvitation id updates w).2 = keys w ∧
  match invitations w !! id with
  | None => DB.updateInvitation id updates w = (Throws "Invitation not found", w)
  | Some inv =>
      (DB.updateInvitation id updates w).1 = Returns (DB.spread_invitation inv updates) ∧
      invitations (DB.updateInvitation id updates w).2
        = <[id := DB.spread_invitation inv updates]> (invitations w)
  end ∧
  (ledger_wf w →
   InvitationUpdates.id updates = None →
   InvitationUpdates.teamId updates = None →
   InvitationUpdates.email updates = None →
   ledger_wf (DB.updateInvitation id updates w).2) ∧
  (∀ inv email,
     invitations w !! id = Some inv →
     InvitationUpdates.email updates = Some email →
     invitations_by_email w
       !! (email, default (Invitation.teamId inv) (InvitationUpdates.teamId updates)) = None →
     ¬ ledger_wf (DB.updateInvitation id updates w).2).
Proof.
  unfold DB.updateInvitation, DB.getInvitation, bind, gets, modify, ret, throw.
  destruct (invitations w !! id) as [inv|] eqn:Hl; simpl.
  2: { split; [done|]. split; [done|]. split; [done|]. split; [done|].
       split; [by intros|]. by intros. }
  split; [done|]. split; [done|]. split; [done|]. split; [done|]. split.
  - intros Hwf Hid Ht He. unfold ledger_wf. simpl.
    destruct (Hwf id inv Hl) as (? & ? & ?).
    apply map_Forall_insert_2; [|done].
    unfold DB.spread_invitation. rewrite Hid, Ht, He. by simpl.
  - intros inv' email [= <-] He Hnone Hwf.
    destruct (Hwf id (DB.spread_invitation inv updates)) as (_ & _ & [x Hx]).
    { simpl. apply lookup_insert_eq. }
    simpl in Hx. rewrite He in Hx. simpl in Hx. congruence.
Qed.

Lemma updateInvitation_keeps_ledger_witness :
  ledger_wf
    (DB.updateInvitation "inv-1"
       (InvitationUpdates.mk None None None None None None None (Some true) None)
       (set_invitations_by_email <[("u@x.com", "tE") := "inv-1"]>
          (ticking {["inv-1" := expired_invitation]}))).2 ∧
  ¬ ledger_wf
      (DB.updateInvitation "inv-1"
         (InvitationUpdates.mk None None (Some "v@x.com") None None None None None None)
         (set_invitations_by_email <[("u@x.com", "tE") := "inv-1"]>
            (ticking {["inv-1" := expired_invitation]}))).2.
Proof.
  split.
  - destruct (updateInvitation_keeps_ledger "inv-1"
                (InvitationUpdates.mk None None None None None None None (Some true) None)
                (set_invitations_by_email <[("u@x.com", "tE") := "inv-1"]>
                   (ticking {["inv-1" := expired_invitation]}))) as (_ & _ & _ & _ & H & _).
    apply H.
    + unfold ledger_wf. apply (bool_decide_unpack _). vm_compute. exact I.
    + reflexivity.
    + reflexivity.
    + reflexivity.
  - destruct (updateInvitation_keeps_ledger "inv-1"
                (InvitationUpdates.mk None None (Some "v@x.com") None None None None None None)
                (set_invitations_by_email <[("u@x.com", "tE") := "inv-1"]>
                   (ticking {["inv-1" := expired_invitation]}))) as (_ & _ & _ & _ & _ & H).
    apply (H expired_invitation "v@x.com").
    + reflexivity.
    + reflexivity.
    + vm_compute. reflexivity.
Defined.

(** ** More on [join] *)

Ltac run_js :=
  unfold scan_team, invite_selected, try_catch, bind, fetchTeamMembers,
    inviteToTeam, kickMember, tempExpiry, DB.createInvitation, DB.incrementKeyUsage,
    DB.getAccessKey, DB.updateTeam, DB.getTeam, DB.randomUUID, DB.Date_now,
    gets, modify, bind, ret, throw;
  simpl.

Lemma truthy_spec s : Js.truthy s = true ↔ s ≠ "".
Proof. by destruct s. Qed.

(** Past the three guards, [join] answers none of their rejections. *)
Lemma join_run_response env0 email key_code key w :
  Js.truthy email = true →
  Js.truthy key_code = true →
  keys w !! key_code = Some key →
  key_is_used key = false →
  match (join_handler env0 email key_code w).1 with
  | MissingFields | InvalidKey | KeyAlreadyUsed => False
  | _ => True
  end.
Proof.
  intros He Hk Hl Hu. unfold join_handler. erewrite join_run by done.
  pose proof (scan_teams_outcome env0 email key_code key (DB.sorted_teams w) None w) as Hs.
  destruct (scan_teams _ _ _ _ _ _ _) as [[[r1|[s|]]|e] w1]; simpl; try done.
  - by destruct Hs as (name & teamId & -> & _).
  - pose proof (invite_selected_outcome env0 email key_code key s w1) as Hi.
    destruct (invite_selected _ _ _ _ _ _) as [[r2|e2] w2]; [|done].
    by destruct r2.
Qed.

(** [join] answers "Missing fields" exactly when the email or the key
    code is empty, and "Invalid Key" exactly when both are given and the
    code is not stored; with either answer, and with "Key already used", it
    has changed nothing: no roster was fetched, no team record refreshed. *)
Theorem join_rejects_before_any_effect env0 email key_code w :
  ((join_handler env0 email key_code w).1 = MissingFields ↔ email = "" ∨ key_code = "") ∧
  ((join_handler env0 email key_code w).1 = InvalidKey ↔
     email ≠ "" ∧ key_code ≠ "" ∧ keys w !! key_code = None) ∧
  ((join_handler env0 email key_code w).1 = MissingFields ∨
   (join_handler env0 email key_code w).1 = InvalidKey ∨
   (join_handler env0 email key_code w).1 = KeyAlreadyUsed →
   (join_handler env0 email key_code w).2 = w).
Proof.
  destruct (Js.truthy email && Js.truthy key_code) eqn:Ht.
  2: { unfold join_handler. rewrite join_missing_fields by done. simpl.
       apply andb_false_iff in Ht.
       assert (email = "" ∨ key_code = "") as Hor.
       { destruct Ht as [Ht|Ht]; [left|right]; by destruct email, key_code. }
       split; [tauto|]. split; [|done]. split; [done|].
       intros (? & ? & _). by destruct Hor. }
  apply andb_true_iff in Ht as [He Hk].
  pose proof (proj1 (truthy_spec _) He). pose proof (proj1 (truthy_spec _) Hk).
  destruct (keys w !! key_code) as [key|] eqn:Hl.
  2: { unfold join_handler. rewrite join_invalid_key by done. simpl.
       split; [|split]; intuition congruence. }
  destruct (key_is_used key) eqn:Hu.
  { unfold join_handler. erewrite join_key_used by done. simpl.
    split; [|split]; intuition congruence. }
  pose proof (join_run_response env0 email key_code key w He Hk Hl Hu) as Hr.
  destruct (join_handler env0 email key_code w) as [r w']. simpl in *.
  destruct r; split; try split; try done; intuition congruence.
Qed.

(** On a store whose snapshot is taken, the scan never throws; and a team
    it selects is stored. *)
Lemma scan_teams_returns env0 email key_code key ts w :
  snapshot_ok ts w →
  ∃ out w',
    scan_teams env0 email key_code key ts None w = (Returns out, w') ∧
    ∀ s, out = Scanned (Some s) → is_Some (teams w' !! Team.id s).
Proof.
  intros Hsnap.
  destruct (decide (Exists (λ t, is_member env0 (normalizedEmail email) t = true) ts))
    as [Hex|Hno].
  - apply Exists_exists in Hex.
    destruct (first_true _ _ Hex) as (pre & m & post & -> & Hpre & Hm).
    destruct (scan_teams_member env0 email key_code key pre m post None w Hsnap Hpre Hm)
      as (w' & -> & _).
    eexists _, _. split; [done|]. by intros s.
  - apply not_Exists_Forall in Hno; [|intros t; apply _].
    assert (Forall (λ t, is_member env0 (normalizedEmail email) t = false) ts) as Hno'.
    { eapply Forall_impl; [exact Hno|]. intros t Ht. simpl in Ht. by destruct (is_member _ _ t). }
    destruct (scan_teams_no_member env0 email key_code key ts None w Hsnap Hno')
      as (sel & w' & -> & _ & _ & Hdom & _ & _ & _ & Hnone & Hsome).
    eexists _, _. split; [done|]. intros s [= ->].
    destruct (decide (Exists (λ t, has_room env0 t = true) ts)) as [Hroom|Hnoroom].
    + apply Exists_exists in Hroom.
      destruct (first_true _ _ Hroom) as (pre & c & post & E & Hp & Hc).
      destruct (Hsome eq_refl pre c post E Hp Hc) as (now & [= ->]). simpl.
      apply Hdom. destruct Hsnap as [_ Hs]. rewrite (Hs c); [eauto|].
      rewrite E. apply elem_of_app. right. left.
    + apply not_Exists_Forall in Hnoroom; [|intros t; apply _].
      assert (Some s = None) as Hx; [|done].
      apply Hnone; [done|].
      eapply Forall_impl; [exact Hnoroom|]. intros t Ht. simpl in Ht.
      by destruct (has_room _ t).
Qed.

(** On a well-formed team store no exception leaves [join] on string
    fields: a roster that cannot be fetched, or an invite that is refused,
    is answered by the handler itself. *)
Lemma join_strings_no_throw env0 email key_code w :
  teams_wf w →
  match (join_handler env0 email key_code w).1 with
  | ServerError _ => False
  | _ => True
  end.
Proof.
  intros Hwf. unfold join_handler.
  destruct (Js.truthy email && Js.truthy key_code) eqn:Ht.
  2: { by rewrite join_missing_fields. }
  apply andb_true_iff in Ht as [He Hk].
  destruct (keys w !! key_code) as [key|] eqn:Hl.
  2: { by rewrite join_invalid_key. }
  destruct (key_is_used key) eqn:Hu.
  { by erewrite join_key_used. }
  erewrite join_run by done.
  destruct (scan_teams_returns env0 email key_code key _ w (sorted_teams_snapshot w Hwf))
    as (out & w1 & Hrun & Hsel).
  rewrite Hrun.
  pose proof (scan_teams_outcome env0 email key_code key (DB.sorted_teams w) None w) as Hs.
  rewrite Hrun in Hs.
  destruct out as [r|[s|]]; simpl; [| |done].
  - by destruct Hs as (name & teamId & -> & _).
  - specialize (Hsel s eq_refl).
    destruct (invite env0 (Team.accessToken s) (Team.accountId s) email) as [msg|] eqn:Hinv.
    + by destruct (invite_selected_failed env0 email key_code key s w1 msg Hinv Hsel)
        as (w' & -> & _).
    + by destruct (invite_selected_sent env0 email key_code key s w1 Hinv Hsel)
        as (w' & -> & _).
Qed.

(** The 500 answers of [POST /api/join].  On a well-formed team store the
    error middleware answers for the route in exactly three cases: the body
    cannot be read; both fields are truthy and the key code is an object or
    an array; both fields are truthy, the key code is that of a stored key
    that is not used up, and the email is no string, so that
    [email.toLowerCase()] throws.  In each of them nothing was written.
    With two string fields the route is the handler on strings and never
    answers 500: a roster that cannot be fetched, or an invite that is
    refused, is answered by the handler itself. *)
Theorem join_server_errors env0 invalid_key_part body w :
  teams_wf w →
  (∀ message,
     (join_request_handler env0 invalid_key_part body w).1 = ServerError message ↔
       body = Unreadable message ∨
       ∃ email key_code,
         body = Fields email key_code ∧
         Json.truthy email = true ∧ Json.truthy key_code = true ∧
         ((key_code = Json.Other ∧ message = invalid_key_part) ∨
          (∃ code key,
             key_code = Json.Str code ∧
             keys w !! code = Some key ∧ key_is_used key = false ∧
             (∀ s, email ≠ Json.Str s) ∧
             message = "email.toLowerCase is not a function"))) ∧
  (∀ message,
     (join_request_handler env0 invalid_key_part body w).1 = ServerError message →
     (join_request_handler env0 invalid_key_part body w).2 = w) ∧
  (∀ email key_code,
     body = Fields (Json.Str email) (Json.Str key_code) →
     join_request_handler env0 invalid_key_part body w = join_handler env0 email key_code w ∧
     ∀ message, (join_handler env0 email key_code w).1 ≠ ServerError message).
Proof.
  intros Hwf.
  assert (∀ email key_code message,
            (join_handler env0 email key_code w).1 ≠ ServerError message) as Hstr.
  { intros email key_code message Hm.
    pose proof (join_strings_no_throw env0 email key_code w Hwf) as H.
    by rewrite Hm in H. }
  assert (∀ email key_code,
            Json.truthy (Json.Str email) = true → Json.truthy (Json.Str key_code) = true →
            join_request_handler env0 invalid_key_part
              (Fields (Json.Str email) (Json.Str key_code)) w
            = join_handler env0 email key_code w) as Heq.
  { intros email key_code He Hk. unfold join_request_handler, join_request, join_handler.
    by rewrite He, Hk. }
  assert (∀ email key_code,
            join_request_handler env0 invalid_key_part
              (Fields (Json.Str email) (Json.Str key_code)) w
            = join_handler env0 email key_code w) as Heq'.
  { intros email key_code.
    destruct (Js.truthy email && Js.truthy key_code) eqn:Ht.
    - apply andb_true_iff in Ht as [He Hk]. by apply Heq.
    - unfold join_request_handler, join_request, join_handler. simpl.
      rewrite join_missing_fields by done.
      by destruct (Js.truthy email), (Js.truthy key_code). }
  split; [|split].
  - intros message. destruct body as [m|email key_code].
    { simpl. split.
      - intros [= ->]. by left.
      - intros [[= ->]|(? & ? & [=] & _)]. done. }
    split.
    + intros Hm. right. exists email, key_code. split; [done|].
      unfold join_request_handler, join_request in Hm.
      destruct (Json.truthy email) eqn:He; [|done].
      destruct (Json.truthy key_code) eqn:Hk; [|by rewrite orb_true_r in Hm].
      split; [done|]. split; [done|]. simpl in Hm.
      destruct key_code as [| |b|q|code|]; try done.
      2: { left. split; [done|]. by injection Hm as <-. }
      right.
      destruct email as [| |b|q|e|]; try done.
      3: { exfalso. apply (Hstr e code message).
           unfold join_handler. exact Hm. }
      all: unfold bind, DB.getAccessKey, DB.listTeams, gets, throw in Hm.
      all: destruct (keys w !! code) as [key|] eqn:Hl; [|done].
      all: destruct (key_is_used key) eqn:Hu; [done|].
      all: exists code, key; repeat split; try done.
      all: by injection Hm as <-.
    + intros [[=]|(email' & key_code' & [= <- <-] & He & Hk & Hcase)].
      unfold join_request_handler, join_request. rewrite He, Hk. simpl.
      destruct Hcase as [[-> ->]|(code & key & -> & Hl & Hu & Hns & ->)]; [done|].
      destruct email as [| |b|q|e|]; try done.
      3: { by destruct (Hns e). }
      all: unfold bind, DB.getAccessKey, DB.listTeams, gets, throw.
      all: by rewrite Hl, Hu.
  - intros message Hm. destruct body as [m|email key_code]; [done|].
    unfold join_request_handler, join_request in *.
    destruct (Json.truthy email) eqn:He; [|done].
    destruct (Json.truthy key_code) eqn:Hk; [|by rewrite orb_true_r in Hm].
    simpl in *.
    destruct key_code as [| |b|q|code|]; try done.
    destruct email as [| |b|q|e|]; try done.
    3: { exfalso. apply (Hstr e code message). unfold join_handler. exact Hm. }
    all: unfold bind, DB.getAccessKey, DB.listTeams, gets, throw in *.
    all: destruct (keys w !! code) as [key|] eqn:Hl; [|done].
    all: by destruct (key_is_used key) eqn:Hu.
  - intros email key_code ->. split; [apply Heq'|]. intros message. apply Hstr.
Qed.

Lemma join_server_errors_witness :
  join_request_handler env "expected a key part" (Fields (Json.Number (5 # 1)) (Json.Str "k1"))
    (world [teamF; teamC] single_use)
  = (ServerError "email.toLowerCase is not a function", world [teamF; teamC] single_use) ∧
  ∀ message,
    (join_handler (refusing "Invite failed: 401 - unauthorized") "z@x.com" "k1"
       (world [teamF; teamC] single_use)).1 ≠ ServerError message.
Proof.
  split.
  - destruct (join_server_errors env "expected a key part"
                (Fields (Json.Number (5 # 1)) (Json.Str "k1"))
                (world [teamF; teamC] single_use)) as (H1 & H2 & _).
    { unfold teams_wf. apply (bool_decide_unpack _). vm_compute. exact I. }
    assert ((join_request_handler env "expected a key part"
               (Fields (Json.Number (5 # 1)) (Json.Str "k1"))
               (world [teamF; teamC] single_use)).1
            = ServerError "email.toLowerCase is not a function") as Hr.
    { apply H1. right. exists (Json.Number (5 # 1)), (Json.Str "k1").
      split; [reflexivity|]. split; [reflexivity|]. split; [reflexivity|].
      right. exists "k1", single_use.
      split; [reflexivity|]. split; [reflexivity|]. split; [reflexivity|].
      split; [discriminate|reflexivity]. }
    specialize (H2 _ Hr).
    destruct (join_request_handler _ _ _ _) as [r w']. simpl in *. by rewrite Hr, H2.
  - destruct (join_server_errors (refusing "Invite failed: 401 - unauthorized")
                "expected a key part" (Fields (Json.Str "z@x.com") (Json.Str "k1"))
                (world [teamF; teamC] single_use)) as (_ & _ & H3).
    { unfold teams_wf. apply (bool_decide_unpack _). vm_compute. exact I. }
    destruct (H3 "z@x.com" "k1" eq_refl) as [_ H]. exact H.
Defined.

(** What the scan leaves in the store, team by team. *)
Lemma scan_team_store env0 email key_code key t sel w :
  teams w !! Team.id t = Some t →
  is_member env0 (normalizedEmail email) t = false →
  ∃ now, teams (scan_team env0 email key_code key t sel w).2 !! Team.id t
         = Some (after_scan env0 t now).
Proof.
  intros Hl Hm. unfold is_member, live_roster, after_scan in *.
  destruct (Team.tokenStatus t) eqn:Ha.
  2: { rewrite scan_team_expired by done. by exists 0. }
  destruct (members env0 (Team.accessToken t) (Team.accountId t)) as [msg|roster] eqn:Hr.
  - erewrite scan_team_fetch_failed by done. simpl. rewrite lookup_insert_eq. eauto.
  - erewrite scan_team_refreshed by done. simpl. rewrite lookup_insert_eq. eauto.
Qed.

Lemma scan_teams_store env0 email key_code key ts :
  ∀ sel w,
    snapshot_ok ts w →
    Forall (λ t, is_member env0 (normalizedEmail email) t = false) ts →
    ∀ t, t ∈ ts →
         ∃ now, teams (scan_teams env0 email key_code key ts sel w).2 !! Team.id t
                = Some (after_scan env0 t now).
Proof.
  induction ts as [|t0 ts IH]; intros sel w Hsnap Hno t Hin.
  { by apply elem_of_nil in Hin. }
  apply Forall_cons in Hno as [Hn0 Hno].
  pose proof (snapshot_ok_step env0 email key_code key t0 ts sel w Hsnap) as Hsnap'.
  apply snapshot_ok_cons in Hsnap as (Hl & Hnin & _).
  destruct (scan_team_store env0 email key_code key t0 sel w Hl Hn0) as (now & Hst).
  destruct (scan_team_no_member env0 email key_code key t0 sel w Hl Hn0) as (w1 & Hstep & _).
  simpl. unfold bind. rewrite Hstep in *. simpl in *.
  set (sel1 := if has_room env0 t0 && negb (bool_decide (is_Some sel))
               then Some (refreshed t0 (member_count env0 t0) (clock env0 (clock_reads w)))
               else sel) in *.
  destruct (scan_teams_no_member env0 email key_code key ts sel1 w1 Hsnap' Hno)
    as (sel' & w' & Hrun & _ & _ & _ & Hne & _).
  apply elem_of_cons in Hin as [->|Hin].
  - exists now. rewrite Hrun. simpl. by rewrite Hne.
  - apply (IH sel1 w1 Hsnap' Hno t Hin).
Qed.

(** The store after the invite step, for the selected team. *)
Lemma invite_selected_sent_teams env0 email key_code key s w st :
  invite env0 (Team.accessToken s) (Team.accountId s) email = None →
  teams w !! Team.id s = Some st →
  ∃ n1 n2,
    teams (invite_selected env0 email key_code key s w).2 =
      <[Team.id s :=
          DB.spread_team st
            (TeamUpdates.cached None None None (Some (Team.memberCount s + 1))
               (Some (clock env0 n1)))
            (clock env0 n2)]> (teams w).
Proof.
  intros Hinv Hl. run_js. rewrite Hinv. simpl.
  destruct (AccessKey.isTemp key); simpl;
    destruct (keys w !! key_code); simpl; rewrite Hl; simpl; by eexists _, _.
Qed.

Lemma invite_selected_failed_teams env0 email key_code key s w st message :
  invite env0 (Team.accessToken s) (Team.accountId s) email = Some message →
  teams w !! Team.id s = Some st →
  teams (invite_selected env0 email key_code key s w).2 =
    if Js.includes "401" message || Js.includes "expired" message
    then <[Team.id s :=
             DB.spread_team st (TeamUpdates.cached None None (Some expired) None None)
               (clock env0 (clock_reads w))]> (teams w)
    else teams w.
Proof.
  intros Hinv Hl. run_js. rewrite Hinv. simpl.
  destruct (_ || _); simpl; [|done]. by rewrite Hl.
Qed.

(** The scan and the store when [join] goes on to invite on [c]. *)
Lemma join_scan_selects env0 w email key_code key pre c post :
  Js.truthy email = true →
  Js.truthy key_code = true →
  keys w !! key_code = Some key →
  key_is_used key = false →
  teams_wf w →
  DB.sorted_teams w = pre ++ c :: post →
  Forall (λ t, is_member env0 (normalizedEmail email) t = false) (DB.sorted_teams w) →
  Forall (λ t, has_room env0 t = false) pre →
  has_room env0 c = true →
  ∃ now w1,
    join env0 email key_code w =
      invite_selected env0 email key_code key (refreshed c (member_count env0 c) now) w1 ∧
    (∀ t, t ∈ DB.sorted_teams w →
          ∃ now', teams w1 !! Team.id t = Some (after_scan env0 t now')) ∧
    (∀ k, (k ∉ Team.id <$> DB.sorted_teams w) → teams w1 !! k = teams w !! k).
Proof.
  intros He Hk Hl Hu Hwf E Hno Hpre Hc.
  pose proof (sorted_teams_snapshot w Hwf) as Hsnap.
  pose proof (scan_teams_store env0 email key_code key _ None w Hsnap Hno) as Hstore.
  destruct (scan_teams_no_member env0 email key_code key _ None w Hsnap Hno)
    as (sel & w1 & Hrun & _ & _ & _ & Hne & _ & _ & _ & Hsel).
  destruct (Hsel eq_refl pre c post E Hpre Hc) as (now & ->).
  exists now, w1. erewrite join_run by done. rewrite Hrun in *. by split.
Qed.

Lemma has_room_after_scan env0 c now :
  has_room env0 c = true →
  after_scan env0 c now = refreshed c (member_count env0 c) now.
Proof.
  unfold has_room, member_count, live_roster, after_scan.
  destruct (Team.tokenStatus c); [|done].
  by destruct (members env0 _ _).
Qed.

(** When [join] finds the email in no roster, it leaves every stored team
    but the one it invites on as the scan found it: a team marked expired
    untouched (its roster is not even asked for), a team whose roster could
    not be fetched marked expired, any other team active with its live
    non-owner count as cached member count. *)
Theorem join_refreshes_cache env0 w email key_code key :
  Js.truthy email = true →
  Js.truthy key_code = true →
  keys w !! key_code = Some key →
  key_is_used key = false →
  teams_wf w →
  map_Forall (λ _ t, is_member env0 (normalizedEmail email) t = false) (teams w) →
  ∀ k t,
    teams w !! k = Some t →
    (∃ now, teams (join_handler env0 email key_code w).2 !! k = Some (after_scan env0 t now)) ∨
    (has_room env0 t = true ∧
     invite_calls (join_handler env0 email key_code w).2 =
       invite_calls w ++ [(Team.accessToken t, Team.accountId t, email)]).
Proof.
  intros He Hk Hl Hu Hwf Hno k t Hkt.
  apply Forall_sorted_teams in Hno.
  pose proof (sorted_teams_snapshot w Hwf) as Hsnap.
  assert (t ∈ DB.sorted_teams w) as Hin by (apply elem_of_sorted_teams; eauto).
  assert (Team.id t = k) as Hid by (by apply (Hwf k t)).
  destruct (decide (Exists (λ t, has_room env0 t = true) (DB.sorted_teams w)))
    as [Hroom|Hnoroom].
  - apply Exists_exists in Hroom.
    destruct (first_true _ _ Hroom) as (pre & c & post & E & Hp & Hc).
    destruct (decide (Team.id c = k)) as [Hck|Hck].
    + right. assert (c = t) as ->.
      { destruct Hsnap as [_ Hs]. specialize (Hs c). rewrite Hck, Hkt in Hs.
        symmetry. injection Hs; [done|]. rewrite E. apply elem_of_app. right. left. }
      split; [done|].
      destruct (join_invites_candidate env0 w email key_code key pre t post)
        as (r & w' & -> & Hic & _); done.
    + left.
      destruct (join_scan_selects env0 w email key_code key pre c post)
        as (now & w1 & Hrun & Hstore & _); try done.
      destruct (Hstore t Hin) as (now' & Ht). rewrite Hid in Ht.
      destruct (Hstore c) as (nowc & Hc1).
      { rewrite E. apply elem_of_app. right. left. }
      exists now'. unfold join_handler. rewrite Hrun.
      set (c' := refreshed c (member_count env0 c) now) in *.
      assert (teams (invite_selected env0 email key_code key c' w1).2 !! k
              = Some (after_scan env0 t now')) as Hfin.
      { destruct (invite env0 (Team.accessToken c') (Team.accountId c') email)
          as [msg|] eqn:Hinv.
        - erewrite invite_selected_failed_teams by done.
          destruct (_ || _); [|done]. by rewrite lookup_insert_ne.
        - destruct (invite_selected_sent_teams env0 email key_code key c' w1 _ Hinv Hc1)
            as (n1 & n2 & ->). by rewrite lookup_insert_ne. }
      by destruct (invite_selected _ _ _ _ _ _) as [[?|?] ?].
  - left. apply not_Exists_Forall in Hnoroom; [|intros t'; apply _].
    assert (Forall (λ t, has_room env0 t = false) (DB.sorted_teams w)) as Hnr.
    { eapply Forall_impl; [exact Hnoroom|]. intros t' Ht'. simpl in Ht'.
      by destruct (has_room _ t'). }
    destruct (scan_teams_store env0 email key_code key _ None w Hsnap Hno t Hin)
      as (now & Ht).
    destruct (scan_teams_no_member env0 email key_code key _ None w Hsnap Hno)
      as (sel & w1 & Hrun & _ & _ & _ & _ & _ & _ & Hnone & _).
    rewrite (Hnone eq_refl Hnr) in Hrun.
    exists now. unfold join_handler. erewrite join_run by done.
    rewrite Hrun in *. simpl in *. by rewrite <- Hid.
Qed.

Lemma join_refreshes_cache_witness :
  ∃ tF tA,
    teams (join_handler env "z@x.com" "k1" (world [teamF; teamA] single_use)).2 !! "tF"
      = Some tF ∧
    Team.tokenStatus tF = expired ∧
    teams (join_handler env "z@x.com" "k1" (world [teamF; teamA] single_use)).2 !! "tA"
      = Some tA ∧
    Team.memberCount tA = 4.
Proof.
  pose proof (join_refreshes_cache env (world [teamF; teamA] single_use) "z@x.com" "k1"
                single_use eq_refl eq_refl eq_refl eq_refl) as H.
  assert (teams_wf (world [teamF; teamA] single_use)) as Hwf.
  { unfold teams_wf. apply (bool_decide_unpack _). vm_compute. exact I. }
  assert (map_Forall (λ _ t, is_member env (normalizedEmail "z@x.com") t = false)
            (teams (world [teamF; teamA] single_use))) as Hno.
  { apply (bool_decide_unpack _). vm_compute. exact I. }
  destruct (H Hwf Hno "tF" teamF eq_refl) as [(now1 & H1)|[Hr _]]; [|discriminate Hr].
  destruct (H Hwf Hno "tA" teamA eq_refl) as [(now2 & H2)|[Hr _]]; [|discriminate Hr].
  eexists _, _. split; [exact H1|]. split; [reflexivity|].
  split; [exact H2|reflexivity].
Defined.

(** When the scan selects team [c], the first team with fewer than 4
    non-owner members on its roster, and the remote service accepts the
    invite, [join] answers "sent" and stores for [c] the number of
    non-owner members of its roster plus one as cached member count and a
    reading of the clock as time of the last invite; the team stays active
    and keeps its id, name, token, account and creation time. *)
Theorem join_invite_updates_team env0 w email key_code key pre c post :
  Js.truthy email = true →
  Js.truthy key_code = true →
  keys w !! key_code = Some key →
  key_is_used key = false →
  teams_wf w →
  DB.sorted_teams w = pre ++ c :: post →
  Forall (λ t, is_member env0 (normalizedEmail email) t = false) (DB.sorted_teams w) →
  Forall (λ t, below_capacity env0 t = false) pre →
  below_capacity env0 c = true →
  invite env0 (Team.accessToken c) (Team.accountId c) email = None →
  (join_handler env0 email key_code w).1 = InvitationSent ∧
  ∃ c' n,
    teams (join_handler env0 email key_code w).2 !! Team.id c = Some c' ∧
    Team.memberCount c' = seats_taken env0 c + 1 ∧
    Team.lastInviteAt c' = Some (clock env0 n) ∧
    Team.tokenStatus c' = active ∧
    Team.id c' = Team.id c ∧ Team.name c' = Team.name c ∧
    Team.accessToken c' = Team.accessToken c ∧
    Team.accountId c' = Team.accountId c ∧
    Team.createdAt c' = Team.createdAt c.
Proof.
  intros He Hk Hl Hu Hwf E Hno Hpre Hc Hinv.
  rewrite <- has_room_below_capacity in Hc.
  apply Forall_has_room_below_capacity in Hpre.
  rewrite <- member_count_seats_taken.
  destruct (join_scan_selects env0 w email key_code key pre c post)
    as (now & w1 & Hrun & Hstore & _); try done.
  destruct (Hstore c) as (nowc & Hc1).
  { rewrite E. apply elem_of_app. right. left. }
  rewrite (has_room_after_scan _ _ _ Hc) in Hc1.
  set (c' := refreshed c (member_count env0 c) now) in *.
  destruct (invite_selected_sent env0 email key_code key c' w1 Hinv)
    as (w' & Hsent & _); [by eauto|].
  destruct (invite_selected_sent_teams env0 email key_code key c' w1 _ Hinv Hc1)
    as (n1 & n2 & Ht).
  unfold join_handler. rewrite Hrun, Hsent in *. simpl in *.
  split; [done|]. eexists _, n1. rewrite Ht, lookup_insert_eq.
  split; [done|]. by repeat split.
Qed.

Lemma join_invite_updates_team_witness :
  ∃ c',
    teams (join_handler with_teamG "z@x.com" "k1"
             (world [teamA; teamG; teamC; teamD] single_use)).2 !! "tG" = Some c' ∧
    Team.memberCount c' = 4.
Proof.
  destruct (join_invite_updates_team with_teamG
              (world [teamA; teamG; teamC; teamD] single_use)
              "z@x.com" "k1" single_use [teamA] teamG [teamC; teamD])
    as (_ & c' & n & Hl & Hm & _).
  - reflexivity.
  - reflexivity.
  - reflexivity.
  - reflexivity.
  - unfold teams_wf. apply (bool_decide_unpack _). vm_compute. exact I.
  - vm_compute. reflexivity.
  - vm_compute. repeat constructor.
  - repeat constructor.
  - reflexivity.
  - reflexivity.
  - exists c'. split; [exact Hl|exact Hm].
Defined.

(** When the scan selects team [c] and the remote service refuses the
    invite, [join] answers "Invite failed" with the message as thrown;
    ledger, index and key store are as before the call, so the key is not
    used up; and [c] is marked expired exactly when the message contains
    "401" or "expired", else it stays active with its live count cached. *)
Theorem join_invite_refused env0 w email key_code key pre c post message :
  Js.truthy email = true →
  Js.truthy key_code = true →
  keys w !! key_code = Some key →
  key_is_used key = false →
  teams_wf w →
  DB.sorted_teams w = pre ++ c :: post →
  Forall (λ t, is_member env0 (normalizedEmail email) t = false) (DB.sorted_teams w) →
  Forall (λ t, has_room env0 t = false) pre →
  has_room env0 c = true →
  invite env0 (Team.accessToken c) (Team.accountId c) email = Some message →
  (join_handler env0 email key_code w).1 = InviteFailed message ∧
  keys (join_handler env0 email key_code w).2 = keys w ∧
  invitations (join_handler env0 email key_code w).2 = invitations w ∧
  invitations_by_email (join_handler env0 email key_code w).2 = invitations_by_email w ∧
  ∃ c',
    teams (join_handler env0 email key_code w).2 !! Team.id c = Some c' ∧
    Team.tokenStatus c' =
      (if Js.includes "401" message || Js.includes "expired" message
       then expired else active) ∧
    Team.memberCount c' = member_count env0 c ∧
    Team.accessToken c' = Team.accessToken c.
Proof.
  intros He Hk Hl Hu Hwf E Hno Hpre Hc Hinv.
  destruct (join_invites_candidate env0 w email key_code key pre c post)
    as (r & w' & Hr & _ & _ & Hres); try done.
  rewrite Hinv in Hres. destruct Hres as (-> & Hkeys & Hi & Hx).
  rewrite Hr. simpl. split; [done|]. split; [done|]. split; [done|]. split; [done|].
  destruct (join_scan_selects env0 w email key_code key pre c post)
    as (now & w1 & Hrun & Hstore & _); try done.
  destruct (Hstore c) as (nowc & Hc1).
  { rewrite E. apply elem_of_app. right. left. }
  rewrite (has_room_after_scan _ _ _ Hc) in Hc1.
  set (c' := refreshed c (member_count env0 c) now) in *.
  pose proof (invite_selected_failed_teams env0 email key_code key c' w1 _ message Hinv Hc1)
    as Ht.
  unfold join_handler in Hr. rewrite Hrun in Hr.
  destruct (invite_selected env0 email key_code key c' w1) as [[?|?] w2];
    [|discriminate Hr].
  injection Hr as -> ->. simpl in Ht. rewrite Ht.
  destruct (_ || _); [rewrite lookup_insert_eq|rewrite Hc1]; by eexists.
Qed.

Lemma join_invite_refused_witness :
  (join_handler (refusing "Invite failed: 401 - unauthorized") "z@x.com" "k1"
     (world [teamA; teamC] single_use)).1
    = InviteFailed "Invite failed: 401 - unauthorized" ∧
  ∃ c',
    teams (join_handler (refusing "Invite failed: 401 - unauthorized") "z@x.com" "k1"
             (world [teamA; teamC] single_use)).2 !! "tC" = Some c' ∧
    Team.tokenStatus c' = expired.
Proof.
  destruct (join_invite_refused (refusing "Invite failed: 401 - unauthorized")
              (world [teamA; teamC] single_use)
              "z@x.com" "k1" single_use [teamA] teamC [] "Invite failed: 401 - unauthorized")
    as (Hr & _ & _ & _ & c' & Hl & Hs & _).
  - reflexivity.
  - reflexivity.
  - reflexivity.
  - reflexivity.
  - unfold teams_wf. apply (bool_decide_unpack _). vm_compute. exact I.
  - vm_compute. reflexivity.
  - vm_compute. repeat constructor.
  - repeat constructor.
  - reflexivity.
  - reflexivity.
  - split; [exact Hr|]. exists c'. split; [exact Hl|exact Hs].
Defined.

(** ** More on the auto-kick job *)

(** The gates of the job.  With the service disabled, and so with no
    configuration stored at all, a tick changes nothing, whatever the
    ledger holds; with the service enabled and the local hour before
    [startHour] or after [endHour], a tick reads the clock once and does
    nothing else. *)
Theorem auto_kick_gates env0 w :
  (config w = None → auto_kick_tick env0 w = w) ∧
  (∀ c, config w = Some c → AutoKickConfig.enabled c = false → auto_kick_tick env0 w = w) ∧
  (∀ c, config w = Some c → AutoKickConfig.enabled c = true →
        local_hour env0 (clock env0 (clock_reads w)) < AutoKickConfig.startHour c ∨
        AutoKickConfig.endHour c < local_hour env0 (clock env0 (clock_reads w)) →
        auto_kick_tick env0 w = set_clock_reads (S (clock_reads w)) w).
Proof.
  unfold auto_kick_tick, auto_kick, bind, DB.getAutoKickConfig, DB.Date_now, gets, ret.
  split; [by intros ->|]. split.
  - intros c -> Hc. simpl. by rewrite Hc.
  - intros c -> Hc Hh. simpl. rewrite Hc. simpl.
    assert ((local_hour env0 (clock env0 (clock_reads w)) <? AutoKickConfig.startHour c)
            || (AutoKickConfig.endHour c <? local_hour env0 (clock env0 (clock_reads w)))
            = true) as ->; [|done].
    apply orb_true_iff. rewrite !Z.ltb_lt. done.
Qed.

Lemma auto_kick_gates_witness :
  auto_kick_tick env
    (set_config (Some (AutoKickConfig.mk false 300 0 23))
       (ticking {["inv-1" := expired_invitation]}))
  = set_config (Some (AutoKickConfig.mk false 300 0 23))
      (ticking {["inv-1" := expired_invitation]}) ∧
  auto_kick_tick env
    (set_config (Some (AutoKickConfig.mk true 300 13 23))
       (ticking {["inv-1" := expired_invitation]}))
  = set_clock_reads 1
      (set_config (Some (AutoKickConfig.mk true 300 13 23))
         (ticking {["inv-1" := expired_invitation]})).
Proof.
  split.
  - destruct (auto_kick_gates env
                (set_config (Some (AutoKickConfig.mk false 300 0 23))
                   (ticking {["inv-1" := expired_invitation]}))) as (_ & H & _).
    apply (H (AutoKickConfig.mk false 300 0 23)); reflexivity.
  - destruct (auto_kick_gates env
                (set_config (Some (AutoKickConfig.mk true 300 13 23))
                   (ticking {["inv-1" := expired_invitation]}))) as (_ & _ & H).
    apply (H (AutoKickConfig.mk true 300 13 23)); [reflexivity|reflexivity|].
    left. reflexivity.
Defined.

Lemma same_store_refl w : same_store w w.
Proof. by repeat split. Qed.

Lemma expiry_pass_same_store env0 w invites :
  preserves (same_store w) (expiry_pass env0 invites).
Proof.
  induction invites as [|inv invites IH]; simpl; [apply preserves_ret|].
  apply preserves_bind; [|intros b; apply preserves_bind; [|intros _; apply IH]].
  - unfold invite_expired, DB.Date_now. preserve_with fail; try by intros w0.
  - destruct b; [|apply preserves_ret].
    unfold kick_expired, DB.getTeam. preserve_with fail.
    all: unfold fetchTeamMembers; intros w0 Hw0; by destruct (members env0 _ _).
Qed.

(** A tick of the job, whatever the configuration and the ledger, only
    reads: teams, keys, ledger, index, kick logs and configuration are as
    before, nobody is invited or removed; all it does is read the clock and
    ask for rosters. *)
Theorem auto_kick_only_reads env0 w :
  same_store w (auto_kick_tick env0 w) ∧
  (clock_reads w ≤ clock_reads (auto_kick_tick env0 w))%nat ∧
  ∃ fetched, fetch_calls (auto_kick_tick env0 w) = fetch_calls w ++ fetched.
Proof.
  split; [|split].
  - assert (preserves (same_store w) (auto_kick env0)) as H.
    { unfold auto_kick, DB.getAutoKickConfig, DB.Date_now, DB.listInvitations.
      preserve_with ltac:(apply expiry_pass_same_store); try by intros w0. }
    apply H, same_store_refl.
  - assert (preserves (λ w0, (clock_reads w ≤ clock_reads w0)%nat) (auto_kick env0)) as H.
    { unfold auto_kick, DB.getAutoKickConfig, DB.Date_now, DB.listInvitations.
      assert (∀ invites,
                preserves (λ w0, (clock_reads w ≤ clock_reads w0)%nat)
                  (expiry_pass env0 invites)) as Hpass.
      { induction invites as [|inv invites IH]; simpl; [apply preserves_ret|].
        apply preserves_bind; [|intros b; apply preserves_bind; [|intros _; apply IH]].
        - unfold invite_expired, DB.Date_now. preserve_with fail.
          all: intros w0 Hw0; simpl; lia.
        - destruct b; [|apply preserves_ret].
          unfold kick_expired, DB.getTeam. preserve_with fail.
          all: unfold fetchTeamMembers; intros w0 Hw0; by destruct (members env0 _ _). }
      preserve_with ltac:(apply Hpass). all: intros w0 Hw0; simpl; lia. }
    by apply H.
  - assert (preserves (λ w0, ∃ fetched, fetch_calls w0 = fetch_calls w ++ fetched)
              (auto_kick env0)) as H.
    { unfold auto_kick, DB.getAutoKickConfig, DB.Date_now, DB.listInvitations.
      assert (∀ invites,
                preserves (λ w0, ∃ fetched, fetch_calls w0 = fetch_calls w ++ fetched)
                  (expiry_pass env0 invites)) as Hpass.
      { induction invites as [|inv invites IH]; simpl; [apply preserves_ret|].
        apply preserves_bind; [|intros b; apply preserves_bind; [|intros _; apply IH]].
        - unfold invite_expired, DB.Date_now. preserve_with fail; try by intros w0.
        - destruct b; [|apply preserves_ret].
          unfold kick_expired, DB.getTeam. preserve_with fail.
          all: unfold fetchTeamMembers; intros w0 [l Hl];
            destruct (members env0 _ _); simpl; rewrite Hl, <- app_assoc; eauto. }
      preserve_with ltac:(apply Hpass); try by intros w0. }
    apply H. exists []. by rewrite app_nil_r.
Qed.

Lemma invite_expired_never_due env0 inv w :
  never_due env0 inv → (invite_expired env0 inv w).1 = Returns false.
Proof.
  unfold never_due, invite_expired, bind, DB.Date_now, ret.
  intros [H|[H|[H|H]]].
  - by rewrite H.
  - rewrite H. by rewrite andb_false_r.
  - destruct (_ && _); [|done].
    destruct (Invitation.tempExpireAt inv) as [e|]; [|done].
    destruct (e =? 0); [done|]. simpl.
    rewrite bool_decide_eq_false_2 by done. by rewrite andb_false_r.
  - destruct (_ && _); [|done].
    destruct (Invitation.tempExpireAt inv) as [e|]; [|done].
    destruct (e =? 0); [done|]. simpl.
    specialize (H e eq_refl (clock_reads w)).
    by rewrite (proj2 (Z.ltb_ge e (clock env0 (clock_reads w))) H).
Qed.

Lemma invite_expired_fetches env0 inv w :
  fetch_calls (invite_expired env0 inv w).2 = fetch_calls w.
Proof.
  unfold invite_expired, bind, DB.Date_now, ret.
  destruct (_ && _); [|done].
  destruct (Invitation.tempExpireAt inv) as [e|]; [|done].
  by destruct (e =? 0).
Qed.

Lemma expiry_pass_never_due env0 invites :
  Forall (never_due env0) invites →
  ∀ w, fetch_calls (expiry_pass env0 invites w).2 = fetch_calls w.
Proof.
  induction 1 as [|inv invites Hinv _ IH]; intros w; simpl; [done|].
  unfold bind at 1.
  pose proof (invite_expired_never_due env0 inv w Hinv) as Hf.
  pose proof (invite_expired_fetches env0 inv w) as Hc.
  destruct (invite_expired env0 inv w) as [o w1]. simpl in *. subst o.
  unfold bind, ret. by rewrite IH.
Qed.

(** The expiry pass looks a member up only for an invitation that is
    temp, unconfirmed, successful and whose expiry some reading of the
    clock is strictly later than: when every stored invitation fails one
    of these (a confirmed invitation, say, or one that expires exactly at
    the time of the tick), the tick asks for no roster at all. *)
Theorem auto_kick_passes_over env0 w :
  map_Forall (λ _ inv, never_due env0 inv) (invitations w) →
  fetch_calls (auto_kick_tick env0 w) = fetch_calls w.
Proof.
  intros Hall.
  unfold auto_kick_tick, auto_kick, bind, DB.getAutoKickConfig, DB.listInvitations,
    DB.Date_now, gets, ret. simpl.
  destruct (negb _); [done|]. simpl.
  destruct (_ || _); [done|].
  rewrite expiry_pass_never_due; [done|].
  apply Forall_forall. intros inv Hin.
  rewrite sort_perm in Hin. apply elem_of_kv_list in Hin as (id & Hid).
  by apply (Hall id inv).
Qed.

Lemma auto_kick_passes_over_witness :
  fetch_calls
    (auto_kick_tick env
       (ticking {["inv-1" :=
                    Invitation.mk "inv-1" "tE" "u@x.com" (Some "k1") success true
                      (Some 1000) false 100]}))
  = [].
Proof.
  apply (auto_kick_passes_over env
           (ticking {["inv-1" :=
                        Invitation.mk "inv-1" "tE" "u@x.com" (Some "k1") success true
                          (Some 1000) false 100]})).
  apply map_Forall_singleton. right. right. right.
  intros e [= <-] n. vm_compute. discriminate.
Defined.

(** ** The admin's removal of a member *)


(** ** Revoking a pending invite *)

(** [revokeInvite] sends between one and three requests, in the order
    DELETE, POST /revoke, POST /cancel of the invite's URL; it goes on to
    the next one only after a 405 answer.  It returns [true] exactly when
    the last request it sent was answered 200 or 204, and otherwise throws:
    the message of a failed request, or "Revoke invite failed" with the
    status and text of the last answer, which is a 405 only when all three
    were tried. *)
Theorem revokeInvite_fallback_chain fetch accountId inviteId :
  ∃ k last,
    (1 ≤ k ≤ 3)%nat ∧
    (revokeInvite fetch accountId inviteId).2 =
      take k (revoke_attempts (revoke_url accountId inviteId)) ∧
    (∀ i a, (S i < k)%nat →
            revoke_attempts (revoke_url accountId inviteId) !! i = Some a →
            ∃ text, fetch a.1 a.2 = inr (405, text)) ∧
    revoke_attempts (revoke_url accountId inviteId) !! (k - 1)%nat = Some last ∧
    match fetch last.1 last.2 with
    | inl message => (revokeInvite fetch accountId inviteId).1 = Throws message
    | inr (status, text) =>
        if (status =? 200) || (status =? 204)
        then (revokeInvite fetch accountId inviteId).1 = Returns true
        else (revokeInvite fetch accountId inviteId).1 = Throws (revoke_failed status text) ∧
             (status = 405 → k = 3%nat)
    end.
Proof.
  unfold revokeInvite, revoke_attempts.
  set (u := revoke_url accountId inviteId).
  cbn [revoke_loop fst snd].
  destruct (fetch u "DELETE") as [m1|[s1 t1]] eqn:E1.
  { exists 1%nat, (u, "DELETE"). simpl. rewrite E1.
    split; [lia|]. split; [done|]. split; [intros; lia|done]. }
  destruct ((s1 =? 200) || (s1 =? 204)) eqn:Ok1.
  { exists 1%nat, (u, "DELETE"). simpl. rewrite E1, Ok1.
    split; [lia|]. split; [done|]. split; [intros; lia|done]. }
  destruct (Z.eqb_spec s1 405) as [->|N1]; simpl.
  2: { exists 1%nat, (u, "DELETE"). simpl. rewrite E1, Ok1.
       split; [lia|]. split; [done|]. split; [intros; lia|done]. }
  assert (∀ i a, (S i < 2)%nat →
                 [(u, "DELETE"); (u +:+ "/revoke", "POST"); (u +:+ "/cancel", "POST")] !! i
                   = Some a →
                 ∃ text, fetch a.1 a.2 = inr (405, text)) as H2.
  { intros [|[|i]] a Hi; [|lia..]. intros [= <-]. simpl. eauto. }
  destruct (fetch (u +:+ "/revoke") "POST") as [m2|[s2 t2]] eqn:E2.
  { exists 2%nat, (u +:+ "/revoke", "POST"). simpl. rewrite E2.
    split; [lia|]. split; [done|]. by split. }
  destruct ((s2 =? 200) || (s2 =? 204)) eqn:Ok2.
  { exists 2%nat, (u +:+ "/revoke", "POST"). simpl. rewrite E2, Ok2.
    split; [lia|]. split; [done|]. by split. }
  destruct (Z.eqb_spec s2 405) as [->|N2]; simpl.
  2: { exists 2%nat, (u +:+ "/revoke", "POST"). simpl. rewrite E2, Ok2.
       split; [lia|]. split; [done|]. by split. }
  assert (∀ i a, (S i < 3)%nat →
                 [(u, "DELETE"); (u +:+ "/revoke", "POST"); (u +:+ "/cancel", "POST")] !! i
                   = Some a →
                 ∃ text, fetch a.1 a.2 = inr (405, text)) as H3.
  { intros [|[|[|i]]] a Hi; [| |lia..]; intros [= <-]; simpl; eauto. }
  exists 3%nat, (u +:+ "/cancel", "POST"). simpl.
  destruct (fetch (u +:+ "/cancel") "POST") as [m3|[s3 t3]] eqn:E3.
  { split; [lia|]. split; [done|]. by split. }
  destruct ((s3 =? 200) || (s3 =? 204)) eqn:Ok3.
  { split; [lia|]. split; [done|]. by split. }
  split; [lia|]. split; [by destruct (s3 =? 405)|]. split; [done|]. split; [done|].
  by destruct (Z.eqb_spec s3 405) as [->|N3].
Qed.

(** ** Making keys and teams *)

Lemma substring0_length n s : (String.length (Js.substring0 n s) ≤ n)%nat.
Proof.
  revert s. induction n as [|n IH]; intros [|c s]; simpl; try lia.
  specialize (IH s). lia.
Qed.

Lemma generate_loop_spec env0 is_unlimited n :
  ∀ createdKeys w,
    ∃ ks,
      (generate_loop env0 n is_unlimited createdKeys w).1 = Returns (createdKeys ++ ks) ∧
      length ks = n ∧
      Forall (generated is_unlimited) ks ∧
      (∀ key, key ∈ ks →
              ∃ key', keys (generate_loop env0 n is_unlimited createdKeys w).2
                        !! AccessKey.code key = Some key' ∧ key' ∈ ks) ∧
      (∀ c, (c ∉ AccessKey.code <$> ks) →
            keys (generate_loop env0 n is_unlimited createdKeys w).2 !! c = keys w !! c) ∧
      teams (generate_loop env0 n is_unlimited createdKeys w).2 = teams w ∧
      invitations (generate_loop env0 n is_unlimited createdKeys w).2 = invitations w.
Proof.
  induction n as [|n IH]; intros createdKeys w; simpl.
  { exists []. rewrite app_nil_r. repeat split; try done.
    intros key Hin. by apply elem_of_nil in Hin. }
  set (code := Js.substring0 16 (Js.remove_dashes (uuid env0 (uuid_draws w)))).
  set (key0 := AccessKey.mk code None false is_unlimited None 0 (clock env0 (clock_reads w))).
  set (w1 := set_keys <[code := key0]>
               (set_clock_reads (S (clock_reads w)) (set_uuid_draws (S (uuid_draws w)) w))).
  change (bind _ _ w) with (generate_loop env0 n is_unlimited (createdKeys ++ [key0]) w1).
  destruct (IH (createdKeys ++ [key0]) w1) as (ks & Hr & Hlen & Hall & Hst & Hne & Ht & Hi).
  exists (key0 :: ks). rewrite Hr, <- app_assoc. simpl.
  split; [done|]. split; [by rewrite Hlen|].
  split.
  { constructor; [|done]. repeat split. simpl. apply substring0_length. }
  split.
  { intros key [->|Hin]%elem_of_cons.
    - destruct (decide (code ∈ AccessKey.code <$> ks)) as [Hc|Hc].
      + apply list_elem_of_fmap in Hc as (k1 & Hk1 & Hin1).
        destruct (Hst k1 Hin1) as (k' & Hl & Hin'). simpl. rewrite Hk1.
        exists k'. split; [done|]. by right.
      + exists key0. simpl. rewrite (Hne code Hc). unfold w1. simpl.
        rewrite lookup_insert_eq. split; [done|]. left.
    - destruct (Hst key Hin) as (k' & Hl & Hin'). exists k'. split; [done|]. by right. }
  split; [|done].
  intros c Hc. change (c ∉ code :: (AccessKey.code <$> ks)) in Hc.
  apply not_elem_of_cons in Hc as [Hc1 Hc2].
  rewrite (Hne c Hc2). unfold w1. simpl. by rewrite lookup_insert_ne.
Qed.

(** [POST /api/admin/keys] answers [count] keys, one when [count] is
    missing or 0, none when it is negative.  Every key it makes is
    single-use or unlimited as asked, never temp, with a usage count of 0
    and a code of at most 16 characters; each answered code is stored with
    a key of this answer; no other key, no team and no ledger record is
    touched. *)
Theorem generate_keys_never_temp env0 count is_unlimited w :
  ∃ ks,
    (generate_keys env0 count is_unlimited w).1 = Returns ks ∧
    length ks = Z.to_nat (match count with
                          | Some n => if n =? 0 then 1 else n
                          | None => 1
                          end) ∧
    Forall (generated is_unlimited) ks ∧
    (∀ key, key ∈ ks →
            ∃ key', keys (generate_keys env0 count is_unlimited w).2
                      !! AccessKey.code key = Some key' ∧ key' ∈ ks) ∧
    (∀ c, (c ∉ AccessKey.code <$> ks) →
          keys (generate_keys env0 count is_unlimited w).2 !! c = keys w !! c) ∧
    teams (generate_keys env0 count is_unlimited w).2 = teams w ∧
    invitations (generate_keys env0 count is_unlimited w).2 = invitations w.
Proof.
  unfold generate_keys.
  destruct (generate_loop_spec env0 is_unlimited (Z.to_nat (Js.num_or count 1)) [] w)
    as (ks & Hr & Hlen & H).
  exists ks. split; [exact Hr|]. split; [exact Hlen|exact H].
Qed.

Lemma str_or_spec a b : str_or a b = if opt_truthy a then a else b.
Proof. by destruct a as [x|]. Qed.

Lemma opt_truthy_some a :
  opt_truthy a = true → Some (default "" a) = a ∧ Js.truthy (default "" a) = true.
Proof. by destruct a as [x|]. Qed.

(** [POST /api/admin/teams] adds a team exactly when the session could be
    parsed, holds an access token that is not empty, and one of
    [account.id], [accountId], [user.id] is not empty; otherwise it changes
    nothing.  The team it adds is active with no member counted, carries
    the token, and as account the first of the three ids that is not
    empty. *)
Theorem add_team_needs_token_and_account env0 name session w :
  ((add_team env0 name session w).1 = Returns TeamAdded ↔
     ∃ s, session = Some s ∧
          opt_truthy (Session.accessToken s) = true ∧
          (opt_truthy (Session.account_id s) = true ∨
           opt_truthy (Session.accountId s) = true ∨
           opt_truthy (Session.user_id s) = true)) ∧
  ((add_team env0 name session w).1 ≠ Returns TeamAdded →
   (add_team env0 name session w).2 = w) ∧
  ((add_team env0 name session w).1 = Returns TeamAdded →
   ∃ s t,
     session = Some s ∧
     teams (add_team env0 name session w).2 !! Team.id t = Some t ∧
     Team.id t = uuid env0 (uuid_draws w) ∧
     Team.name t = name ∧
     Team.tokenStatus t = active ∧ Team.memberCount t = 0 ∧
     Some (Team.accessToken t) = Session.accessToken s ∧
     Js.truthy (Team.accessToken t) = true ∧
     Js.truthy (Team.accountId t) = true ∧
     Some (Team.accountId t) =
       (if opt_truthy (Session.account_id s) then Session.account_id s
        else if opt_truthy (Session.accountId s) then Session.accountId s
        else Session.user_id s) ∧
     ∀ k, k ≠ Team.id t → teams (add_team env0 name session w).2 !! k = teams w !! k).
Proof.
  unfold add_team. destruct session as [[tok a1 a2 a3 em]|]; simpl.
  2: { split; [split; [done|by intros (? & ? & _)]|]. by split. }
  rewrite !str_or_spec.
  destruct (opt_truthy tok) eqn:Htok; simpl.
  2: { split; [split; [done|]|by split].
       intros (s & [= <-] & Ht & _). simpl in Ht. congruence. }
  set (acc := if opt_truthy a1 then a1 else if opt_truthy a2 then a2 else a3).
  assert (opt_truthy acc = opt_truthy a1 || opt_truthy a2 || opt_truthy a3) as Hacc.
  { unfold acc. destruct (opt_truthy a1) eqn:H1; [done|].
    by destruct (opt_truthy a2) eqn:H2. }
  destruct (opt_truthy acc) eqn:Ha; simpl.
  2: { split; [split; [done|]|by split].
       intros (s & [= <-] & _ & Hor). simpl in Hor.
       symmetry in Hacc. apply orb_false_iff in Hacc as [[??]%orb_false_iff ?].
       destruct Hor as [?|[?|?]]; congruence. }
  split; [|split; [done|]].
  - split; [|done]. intros _. eexists. split; [done|]. split; [done|]. simpl.
    symmetry in Hacc. apply orb_true_iff in Hacc as [[?|?]%orb_true_iff|?]; auto.
  - intros _.
    exists (Session.mk tok a1 a2 a3 em).
    exists (Team.mk (uuid env0 (uuid_draws w)) name (default "" acc) (default "" tok)
              None em 0 active 0 None (clock env0 (clock_reads w))
              (clock env0 (S (clock_reads w)))).
    simpl. rewrite lookup_insert_eq.
    pose proof (opt_truthy_some _ Htok) as [Htok1 Htok2].
    pose proof (opt_truthy_some _ Ha) as [Ha1 Ha2].
    repeat split; try done.
    intros k Hk. by rewrite lookup_insert_ne.
Qed.
